(** * Daily Chart Crime: exclusion filter, calendar alignment and curation

    A shallow embedding of [tools/compute_correlations.py] and
    [tools/curate_series.py].

    - Python [str] is the [string] of its UTF-8 bytes; the substring test
      [kw in title] is [str_in]; [str.lower()] is [lower], which rewrites
      the ASCII letters and the two code points outside ASCII whose
      lower-case form has an ASCII character (U+212A and U+0130): the
      keyword tables are ASCII, so nothing else of a lower-cased title can
      take part in a match.
    - Python [float] is the kernel's binary64 [float]; comparisons such as
      [abs_r > 0.15] are [PrimFloat.ltb], so the thresholds are the very
      doubles the interpreter compares with.
    - [set] is [gset], [dict] is [gmap]; [sorted] is a stable insertion sort
      on the lexicographic order of strings (ISO dates are compared as
      strings by the scripts).
    - numpy is not part of the repository: [np.std], [np.corrcoef] and the
      builtin [round] are parameters of the scoring section; what numpy
      computes for the first two in binary64 is written out separately and
      used where the zero-variance guard is put to the test.
    - the network is not part of it either: what [requests.get] answers is
      an oracle indexed by the number of requests made before, and what
      [fetch_observations] returns in a turn of the main loop is an oracle
      indexed by the turn. *)

From Stdlib Require Import ZArith Ascii.
From Stdlib Require Import PrimFloat.
From Stdlib Require Uint63 SpecFloat FloatOps FloatAxioms.
From stdpp Require Import gmap strings list sorting.

Set Warnings "-inexact-float,-clear-no-such-hyp".
Set Default Proof Using "Type".

(** * Part I: the programs *)

(** ** Strings *)

Module Str.

(** [s.startswith(kw)] *)
Fixpoint startswith (kw s : string) : bool :=
  match kw, s with
  | EmptyString, _ => true
  | String a kw', String b s' => if decide (a = b) then startswith kw' s' else false
  | String _ _, EmptyString => false
  end.

(** [kw in s]: some suffix of [s] starts with [kw]. *)
Fixpoint str_in (kw s : string) : bool :=
  startswith kw s ||
  match s with
  | EmptyString => false
  | String _ s' => str_in kw s'
  end.

Definition lower_ascii (c : ascii) : ascii :=
  let n := nat_of_ascii c in
  if (65 <=? n)%nat && (n <=? 90)%nat then ascii_of_nat (n + 32) else c.

(** [s.lower()] on the UTF-8 bytes of [s], as far as a test [kw in s.lower()]
    with a keyword of ASCII characters can tell.  Python lower-cases code
    point by code point (with a context rule for the Greek capital sigma,
    whose two lower-case forms are both outside ASCII).  The letters [A-Z]
    become [a-z]; among the code points outside ASCII exactly two have a
    lower-case form with an ASCII character in it: U+212A KELVIN SIGN (bytes
    226 132 170) becomes [k], and U+0130 LATIN CAPITAL LETTER I WITH DOT
    ABOVE (bytes 196 176) becomes [i] followed by U+0307 (bytes 204 135).
    Every other code point outside ASCII becomes code points outside ASCII,
    whose bytes are all 128 or more like its own: its bytes are kept here.
    So the ASCII characters of the result, and the places where a code point
    outside ASCII separates them, are those of [s.lower()]. *)
Fixpoint lower (s : string) : string :=
  match s with
  | EmptyString => EmptyString
  | String c s' =>
      match s' with
      | EmptyString => String (lower_ascii c) (lower s')
      | String c1 s1 =>
          if Ascii.eqb c "196" && Ascii.eqb c1 "176"
          then String "i" (String "204" (String "135" (lower s1)))
          else
            match s1 with
            | EmptyString => String (lower_ascii c) (lower s')
            | String c2 s2 =>
                if Ascii.eqb c "226" && Ascii.eqb c1 "132" && Ascii.eqb c2 "170"
                then String "k" (lower s2)
                else String (lower_ascii c) (lower s')
            end
      end
  end.

(** Every character of [s] is an ASCII character. *)
Fixpoint is_ascii (s : string) : bool :=
  match s with
  | EmptyString => true
  | String c s' => (nat_of_ascii c <? 128)%nat && is_ascii s'
  end.

(** [any(kw in t for kw in kws)] *)
Definition any_in (kws : list string) (t : string) : bool :=
  existsb (fun kw => str_in kw t) kws.

End Str.

Import Str.

(** ** Data model *)

(** A record of the discovery catalog. *)
Record Series := mkSeries {
  s_id : string;
  s_title : string;
  s_units : string;
  s_popularity : Z
}.

(** An observation [{"date": ..., "value": ...}]; dates are ISO strings. *)
Record Observation := mkObs {
  o_date : string;
  o_value : float
}.

(** A row of [strict_correlations.json].  [n_dates] is the current schema,
    [n_aligned] the legacy one; either key may be absent. *)
Record Row := mkRow {
  row_id : string;
  row_title : string;
  row_r : float;
  row_abs_r : float;
  row_n_dates : option Z;
  row_n_aligned : option Z;
  row_filled_dates : list string;
  row_units : string;
  row_popularity : Z
}.

(** ** Exclusion filter ([compute_correlations.py]) *)

Definition EXCLUDE_KEYWORDS : list string :=
  [ "vix"; "volatility index"; "nikkei"; "nasdaq"; "dow jones";
    "russell 2000"; "s&p 500"; "s&p500";
    "bitcoin"; "ethereum"; "coinbase"; "litecoin"; "bitcoin cash";
    "crypto";
    "gold price"; "silver price"; "copper price"; "oil price";
    "platinum price"; "palladium price";
    "wheat price"; "corn price"; "soybean price";
    "lumber price"; "cotton price"; "coffee price";
    "cocoa price"; "sugar price"; "cattle price";
    "natural gas price"; "gasoline price"; "diesel price";
    "wti"; "brent";
    "commodity index";
    "stock price"; "share price"; "equity price";
    "total return index value" ].

Definition EXCLUDE_IDS : gset string :=
  list_to_set
  [ "VIXCLS"; "VXNCLS"; "VXDCLS"; "VXVCLS"; "RVXCLS";
    "VXGSCLS"; "VXAPLCLS"; "VXAZNCLS"; "VXGOGCLS"; "VXIBMCLS";
    "VXSLVCLS"; "VXEWZCLS"; "VXFXICLS"; "VXEEMCLS"; "VXGDXCLS";
    "VXUSCLS";
    "NIKKEI225";
    "CBBTCUSD"; "CBETHUSD"; "CBLTCUSD"; "CBBCHUSD";
    "DGASNYH"; "DGASRGCG"; "DCOILWTICO"; "DCOILBRENTEU";
    "DHHNGSP"; "DPROPANEMBTX";
    "GOLDAMGBD228NLBM"; "GOLDPMGBD228NLBM";
    "SLVPRUSD";
    "BAMLHYH0A3CMTRIV"; "BAMLHYH0A0HYM2TRIV";
    "BAMLCC0A1AAATRIV"; "BAMLCC0A0CMTRIV" ].

(** [is_excluded(series)]: the static denylist, then the keyword scan of the
    lower-cased title. *)
Definition is_excluded (series : Series) : bool :=
  let sid := s_id series in
  let title := lower (s_title series) in
  if decide (sid ∈ EXCLUDE_IDS) then true
  else any_in EXCLUDE_KEYWORDS title.

(** The FRED category "Stock Market Indexes", whose member ids the run
    fetches as [exclude_from_category]. *)
Definition EXCLUDE_CATEGORY_ID : Z := 32255.

(** [effective_excluded_ids = EXCLUDE_IDS | exclude_from_category] *)
Definition effective_excluded_ids (exclude_from_category : gset string) : gset string :=
  EXCLUDE_IDS ∪ exclude_from_category.

(** The condition of the comprehension that builds [filtered]:
    [s["id"] not in effective_excluded_ids and not is_excluded(s)]. *)
Definition kept (exclude_from_category : gset string) (s : Series) : bool :=
  bool_decide (s_id s ∉ effective_excluded_ids exclude_from_category)
  && negb (is_excluded s).

(** The exclusion decision of the run is the negation of [kept]. *)
Definition excluded (exclude_from_category : gset string) (s : Series) : bool :=
  negb (kept exclude_from_category s).

Definition filtered (exclude_from_category : gset string) (all_series : list Series)
  : list Series :=
  List.filter (kept exclude_from_category) all_series.

(** ** Calendar alignment ([compute_correlations.py]) *)

Definition WINDOW_DAYS : Z := 60.
Definition MIN_OVERLAP_RATIO : float := 0.95.

(** [sorted(l, key=key)] on string keys: the stable ascending arrangement.
    An element goes in front of the first one whose key is not smaller than
    its own. *)
Fixpoint insert_by {A} (key : A -> string) (x : A) (l : list A) : list A :=
  match l with
  | [] => [x]
  | y :: l' =>
      if decide (String.le (key x) (key y)) then x :: l
      else y :: insert_by key x l'
  end.

Definition sorted_by {A} (key : A -> string) (l : list A) : list A :=
  foldr (insert_by key) [] l.

(** [sorted(s)] for a set of strings. *)
Definition sorted_set (s : gset string) : list string :=
  sorted_by id (elements s).

(** [{o["date"]: o["value"] for o in obs}]: a later entry replaces an
    earlier one with the same date. *)
Definition obs_dict (obs : list Observation) : gmap string float :=
  fold_left (fun m o => <[o_date o := o_value o]> m) obs ∅.

(** The inner loop of [forward_fill]: [prior_value] after scanning
    [obs_sorted] up to the first observation dated after [d]. *)
Fixpoint prior_scan (prior_value : option float) (obs_sorted : list Observation)
    (d : string) : option float :=
  match obs_sorted with
  | [] => prior_value
  | o :: rest =>
      if decide (String.le (o_date o) d)
      then prior_scan (Some (o_value o)) rest d
      else prior_value
  end.

(** The outer loop of [forward_fill] on the state [(obs_map, extra)];
    [None] is the early [return None]. *)
Fixpoint fill_loop (obs_sorted : list Observation) (ds : list string)
    (obs_map : gmap string float) (extra : list Observation)
    : option (list Observation) :=
  match ds with
  | [] => Some extra
  | d :: ds' =>
      if decide (is_Some (obs_map !! d)) then fill_loop obs_sorted ds' obs_map extra
      else
        match prior_scan None obs_sorted d with
        | None => None
        | Some prior_value =>
            fill_loop obs_sorted ds' (<[d := prior_value]> obs_map)
              (extra ++ [mkObs d prior_value])
        end
  end.

Definition forward_fill (obs : list Observation) (target_dates : gset string)
  : option (list Observation) :=
  let obs_sorted := sorted_by o_date obs in
  let obs_map := obs_dict obs_sorted in
  match fill_loop obs_sorted (sorted_set target_dates) obs_map [] with
  | None => None
  | Some extra =>
      Some (match extra with [] => obs_sorted | _ => obs_sorted ++ extra end)
  end.

(** [int(x)]: truncation toward zero; Python raises on an infinity or a
    NaN. *)
Definition int_of_float (x : float) : option Z :=
  match FloatOps.Prim2SF x with
  | SpecFloat.S754_zero _ => Some 0%Z
  | SpecFloat.S754_finite s m e =>
      let a := if (0 <=? e)%Z then (Z.pos m * 2 ^ e)%Z
               else Z.shiftr (Z.pos m) (- e) in
      Some (if s then (- a)%Z else a)
  | _ => None
  end.

(** [float(n)] for a length. *)
Definition float_of_len (n : nat) : float :=
  PrimFloat.of_uint63 (Uint63.of_Z (Z.of_nat n)).

(** [max_missing = int((1.0 - MIN_OVERLAP_RATIO) * len(sp500_dates))] *)
Definition max_missing (n : nat) : option Z :=
  int_of_float (PrimFloat.mul (PrimFloat.sub 1.0 MIN_OVERLAP_RATIO) (float_of_len n)).

Definition dates_of (obs : list Observation) : gset string :=
  list_to_set (map o_date obs).

(** [missing_dates = sp500_dates - obs_dates] *)
Definition missing_dates (sp500_dates : gset string) (obs : list Observation)
  : gset string :=
  sp500_dates ∖ dates_of obs.

Inductive AlignResult :=
  | insufficient_overlap
  | aligned (obs : list Observation).

(** The first half of the body of the main loop, up to the second
    [continue], with the fill procedure as an argument. *)
Definition align_with
    (fill : list Observation -> gset string -> option (list Observation))
    (max_missing : Z) (sp500_dates : gset string) (obs : list Observation)
  : AlignResult :=
  let missing := missing_dates sp500_dates obs in
  if (max_missing <? Z.of_nat (size missing))%Z then insufficient_overlap
  else if decide (missing = ∅) then aligned obs
  else
    match fill obs missing with
    | None => insufficient_overlap
    | Some obs' => aligned obs'
    end.

Definition align : Z -> gset string -> list Observation -> AlignResult :=
  align_with forward_fill.

(** ["filled_dates": sorted(missing_dates)] *)
Definition filled_dates (sp500_dates : gset string) (obs : list Observation)
  : list string :=
  sorted_set (missing_dates sp500_dates obs).

(** The value of the candidate at [d] after alignment: [obs_map[d]]. *)
Definition aligned_value (obs' : list Observation) (d : string) : option float :=
  obs_dict obs' !! d.

(** ** Scoring and the body of the main loop ([compute_correlations.py]) *)

Inductive Outcome :=
  | partial_overlap
  | no_overlap
  | accepted (row : Row)
  | key_error.

Section Scoring.

(** numpy and the builtin [round(x, 6)], which the repository calls and
    does not define. *)
Variable np_std : list float -> float.
Variable np_corrcoef_01 : list float -> list float -> float.
Variable round6 : float -> float.

Definition pearson_r (xs ys : list float) : float :=
  if (length xs <? 10)%nat then nan
  else if PrimFloat.eqb (np_std xs) 0 || PrimFloat.eqb (np_std ys) 0 then nan
  else np_corrcoef_01 xs ys.

(** The body of the main loop for one series, given its observations. *)
Definition process_series (max_missing : Z) (sp500 : list Observation)
    (series : Series) (obs : list Observation) : Outcome :=
  let sp500_dates := dates_of sp500 in
  let sp500_map := obs_dict sp500 in
  match align max_missing sp500_dates obs with
  | insufficient_overlap => partial_overlap
  | aligned obs' =>
      let obs_map := obs_dict obs' in
      let dates := sorted_set sp500_dates in
      match mapM (fun d => sp500_map !! d) dates, mapM (fun d => obs_map !! d) dates with
      | Some sp_vals, Some other_vals =>
          let r := pearson_r sp_vals other_vals in
          if negb (PrimFloat.is_nan r) then
            accepted
              {| row_id := s_id series;
                 row_title := s_title series;
                 row_r := round6 r;
                 row_abs_r := round6 (PrimFloat.abs r);
                 row_n_dates := Some (Z.of_nat (length dates));
                 row_n_aligned := None;
                 row_filled_dates := filled_dates sp500_dates obs;
                 row_units := s_units series;
                 row_popularity := s_popularity series |}
          else no_overlap
      | _, _ => key_error
      end
  end.

End Scoring.

(** ** Curation ([curate_series.py]) *)

(** [row.get("n_dates", row.get("n_aligned", 0))] *)
Definition aligned_count (row : Row) : Z :=
  match row_n_dates row with
  | Some n => n
  | None => match row_n_aligned row with Some n => n | None => 0 end
  end.

(** [reliable = [c for c in all_corr if aligned_count(c) >= 20]] *)
Definition reliable (all_corr : list Row) : list Row :=
  List.filter (fun c => (20 <=? aligned_count c)%Z) all_corr.

(** One turn of the deduplication loop on the state
    [(seen_titles, deduped)]. *)
Definition dedup_step (st : gset string * list Row) (c : Row)
  : gset string * list Row :=
  let '(seen_titles, deduped) := st in
  if decide (row_title c ∉ seen_titles)
  then ({[ row_title c ]} ∪ seen_titles, deduped ++ [c])
  else (seen_titles, deduped).

Definition dedup (rows : list Row) : list Row :=
  snd (fold_left dedup_step rows (∅, [])).

Definition funny_keywords : list string :=
  [ "indeed"; "job posting"; "beauty"; "wellness"; "therapy";
    "nursing"; "pharmacy"; "coffee"; "bitcoin"; "crypto";
    "loading"; "stocking"; "installation"; "maintenance";
    "scientific research"; "real estate"; "software development";
    "marketing"; "insurance"; "media"; "human resources";
    "oregon"; "west virginia"; "tennessee"; "maine";
    "australia"; "germany"; "france"; "united kingdom"; "canada" ].

Definition is_funny (c : Row) : bool :=
  let t := lower (row_title c) in
  any_in funny_keywords t.

Definition interesting : list string :=
  [ "VIX";
    "High Yield Index Option-Adjusted Spread";
    "Policy Rate Uncertainty";
    "Breakeven Inflation";
    "10-Year Treasury";
    "Dollar Index";
    "Gold";
    "Nikkei";
    "SOFR";
    "Federal Funds";
    "Mortgage";
    "Swap" ].

Definition is_interesting_financial (c : Row) : bool :=
  let t := row_title c in
  any_in interesting t.

Inductive Category := funny | financial | other.

Global Instance Category_eq_dec : EqDecision Category.
Proof. solve_decision. Defined.

(** [a > b] on Python floats. *)
Definition fgt (a b : float) : bool := PrimFloat.ltb b a.

(** The [if]/[elif] chain of the classification loop: the list the row is
    appended to, if any. *)
Definition classify (c : Row) : option Category :=
  if is_funny c && fgt (row_abs_r c) 0.15 then Some funny
  else if is_interesting_financial c && fgt (row_abs_r c) 0.1 then Some financial
  else if fgt (row_abs_r c) 0.3 then Some other
  else None.

(** The three lists after the classification loop. *)
Record Classified := mkClassified {
  funny_series : list Row;
  financial_series : list Row;
  other_series : list Row
}.

Definition classify_step (st : Classified) (c : Row) : Classified :=
  match classify c with
  | Some funny =>
      mkClassified (funny_series st ++ [c]) (financial_series st) (other_series st)
  | Some financial =>
      mkClassified (funny_series st) (financial_series st ++ [c]) (other_series st)
  | Some other =>
      mkClassified (funny_series st) (financial_series st) (other_series st ++ [c])
  | None => st
  end.

Definition classify_all (deduped : list Row) : Classified :=
  fold_left classify_step deduped (mkClassified [] [] []).

(** [l.sort(key=..., reverse=True)]: the stable descending arrangement.  An
    element goes in front of the first one whose key is not greater than
    its own, so equal keys keep their order.  (No key is a NaN here: every
    row passed an [abs_r > threshold] test.) *)
Fixpoint insert_desc {A} (key : A -> float) (x : A) (l : list A) : list A :=
  match l with
  | [] => [x]
  | y :: l' =>
      if PrimFloat.ltb (key x) (key y) then y :: insert_desc key x l' else x :: l
  end.

Definition sort_desc {A} (key : A -> float) (l : list A) : list A :=
  foldr (insert_desc key) [] l.

(** An entry of [curated]: the row with its ["category"] key. *)
Record Curated := mkCurated {
  cur_row : Row;
  cur_category : Category
}.

Definition cur_abs_r (e : Curated) : float := row_abs_r (cur_row e).

(** The loop over [financial_series] on the state
    [(curated, baml_count, vix_count)]; each [continue] leaves [curated]
    as it is but keeps the counters it has already incremented. *)
Definition financial_step (st : list Curated * Z * Z) (c : Row)
  : list Curated * Z * Z :=
  let '(curated, baml_count, vix_count) := st in
  let t := row_title c in
  let baml_count' := if str_in "ICE BofA" t then (baml_count + 1)%Z else baml_count in
  if str_in "ICE BofA" t && (5 <? baml_count')%Z
  then (curated, baml_count', vix_count)
  else
    let in_vix := str_in "CBOE" t || str_in "VIX" t in
    let vix_count' := if in_vix then (vix_count + 1)%Z else vix_count in
    if in_vix && (3 <? vix_count')%Z
    then (curated, baml_count', vix_count')
    else (curated ++ [mkCurated c financial], baml_count', vix_count').

(** The loop over [other_series]. *)
Definition other_step (curated : list Curated) (c : Row) : list Curated :=
  let t := row_title c in
  if str_in "ICE BofA" t || str_in "CBOE" t then curated
  else curated ++ [mkCurated c other].

(** Step 4 of the script: the three lists are sorted, then [curated] takes
    every funny row, the capped financial rows and the remaining other
    rows. *)
Definition build_curated (cl : Classified) : list Curated :=
  let funny_sorted := sort_desc row_abs_r (funny_series cl) in
  let financial_sorted := sort_desc row_abs_r (financial_series cl) in
  let other_sorted := sort_desc row_abs_r (other_series cl) in
  let curated := fold_left (fun cur c => cur ++ [mkCurated c funny]) funny_sorted [] in
  let '(curated, _, _) := fold_left financial_step financial_sorted (curated, 0%Z, 0%Z) in
  fold_left other_step other_sorted curated.

(** The script from the reliability filter to the final sort. *)
Definition curate (all_corr : list Row) : list Curated :=
  let deduped := dedup (reliable all_corr) in
  let curated := build_curated (classify_all deduped) in
  sort_desc cur_abs_r curated.

(** [curated_for_worker] *)
Definition curated_for_worker (all_corr : list Row) : list (string * string) :=
  map (fun e => (row_id (cur_row e), row_title (cur_row e))) (curate all_corr).

(** ** The main loop and the run ([compute_correlations.py]) *)

(** [results] and the three counters of the main loop. *)
Record LoopState := mkLoopState {
  st_results : list Row;
  st_perfect_overlap : Z;
  st_partial_overlap : Z;
  st_no_overlap : Z
}.

Definition loop_init : LoopState := mkLoopState [] 0 0 0.

(** The ways the script stops without writing its output: the two
    [RuntimeError]s before the loop, [int] raising on the threshold, and the
    [RuntimeError] that names the series being processed. *)
Inductive RunError :=
  | discovery_empty
  | no_sp500_observations
  | max_missing_error
  | failed_processing (sid : string).

(** [excluded_count = len(all_series) - len(filtered)] *)
Definition excluded_count (exclude_from_category : gset string)
    (all_series : list Series) : Z :=
  Z.of_nat (length all_series)
  - Z.of_nat (length (filtered exclude_from_category all_series)).

(** [excluded_examples = [s for s in all_series if is_excluded(s)][:20]] *)
Definition excluded_examples (all_series : list Series) : list Series :=
  take 20 (List.filter is_excluded all_series).

Section Run.

Variable np_std : list float -> float.
Variable np_corrcoef_01 : list float -> list float -> float.
Variable round6 : float -> float.

(** [fetch_observations(sid, window_start)] as called in turn [i] of the
    main loop: the observations, or [None] when the call raises. *)
Variable fetch_observations : nat -> string -> option (list Observation).

(** One turn of the main loop; [inl sid] is the exception raised from the
    [except] clause. *)
Definition loop_turn (max_missing : Z) (sp500 : list Observation)
    (i : nat) (series : Series) (st : LoopState) : string + LoopState :=
  match fetch_observations i (s_id series) with
  | None => inl (s_id series)
  | Some obs =>
      match process_series np_std np_corrcoef_01 round6 max_missing sp500 series obs with
      | partial_overlap =>
          inr (mkLoopState (st_results st) (st_perfect_overlap st)
                 (st_partial_overlap st + 1) (st_no_overlap st))
      | no_overlap =>
          inr (mkLoopState (st_results st) (st_perfect_overlap st)
                 (st_partial_overlap st) (st_no_overlap st + 1))
      | accepted row =>
          inr (mkLoopState (st_results st ++ [row]) (st_perfect_overlap st + 1)
                 (st_partial_overlap st) (st_no_overlap st))
      | key_error => inl (s_id series)
      end
  end.

(** [for i, series in enumerate(filtered)], from turn [i] on. *)
Fixpoint main_loop (max_missing : Z) (sp500 : list Observation)
    (i : nat) (filtered : list Series) (st : LoopState) : string + LoopState :=
  match filtered with
  | [] => inr st
  | series :: rest =>
      match loop_turn max_missing sp500 i series st with
      | inl sid => inl sid
      | inr st' => main_loop max_missing sp500 (S i) rest st'
      end
  end.

(** The script from the discovery catalog to the sorted [results], given
    what the category request, the discovery file and the S&P 500 request
    returned. *)
Definition run (exclude_from_category : gset string) (all_series : list Series)
    (sp500 : list Observation) : RunError + list Row :=
  match all_series with
  | [] => inl discovery_empty
  | _ :: _ =>
      let filtered := filtered exclude_from_category all_series in
      match sp500 with
      | [] => inl no_sp500_observations
      | _ :: _ =>
          match max_missing (size (dates_of sp500)) with
          | None => inl max_missing_error
          | Some max_missing =>
              match main_loop max_missing sp500 0 filtered loop_init with
              | inl sid => inl (failed_processing sid)
              | inr st => inr (sort_desc row_abs_r (st_results st))
              end
          end
      end
  end.

(** The row was made in the main loop from the series and what its request
    returned. *)
Definition made_from (m : Z) (sp500 : list Observation) (row : Row) (s : Series)
  : Prop :=
  exists obs,
    process_series np_std np_corrcoef_01 round6 m sp500 s obs = accepted row.

End Run.

(** ** The HTTP wrapper ([compute_correlations.py]) *)


(** The value of [data.get("error_code")]: missing or a falsy value other
    than [0] and the empty string, an integer, a string, or another truthy
    value (whose [str] is never ["429"]). *)
Inductive ErrorCode :=
  | code_missing
  | code_int (n : Z)
  | code_str (s : string)
  | code_other.

(** [if data.get("error_code")] *)
Definition code_truthy (c : ErrorCode) : bool :=
  match c with
  | code_missing => false
  | code_int n => negb (n =? 0)%Z
  | code_str s => negb (String.eqb s EmptyString)
  | code_other => true
  end.

(** [str(data["error_code"]) == "429"] *)
Definition code_is_429 (c : ErrorCode) : bool :=
  match c with
  | code_int n => (n =? 429)%Z
  | code_str s => String.eqb s "429"
  | _ => false
  end.

(** What [requests.get] and [resp.json()] give for one request: a
    [Timeout] or [ConnectionError], another exception, or a response with
    its status code and, when [resp.json()] returns a dict, its data. *)
Inductive Response (Data : Type) :=
  | net_error
  | other_exception
  | http_response (status_code : Z) (data : option Data).
Arguments net_error {Data}.
Arguments other_exception {Data}.
Arguments http_response {Data} status_code data.

(** The exceptions [fred_get] ends with. *)
Inductive FredError :=
  | status_error (status_code : Z)
  | api_error (code : ErrorCode)
  | failed_after_retries
  | uncaught_exception.

(** [_api_attempts], [_api_successes], [_api_retries] *)
Record ApiCounters := mkApi {
  api_attempts : Z;
  api_successes : Z;
  api_retries : Z
}.

Definition count_attempt (st : ApiCounters) : ApiCounters :=
  mkApi (api_attempts st + 1) (api_successes st) (api_retries st).

Definition count_retry (st : ApiCounters) : ApiCounters :=
  mkApi (api_attempts st) (api_successes st) (api_retries st + 1).

Definition count_success (st : ApiCounters) : ApiCounters :=
  mkApi (api_attempts st) (api_successes st + 1) (api_retries st).

(** What one turn of the retry loop does with a response. *)
Inductive Verdict (Data : Type) :=
  | retry
  | return_data (data : Data)
  | raise (e : FredError).
Arguments retry {Data}.
Arguments return_data {Data} data.
Arguments raise {Data} e.

Section FredGet.
Context {Data : Type}.

(** [data.get("error_code")] *)
Variable error_code : Data -> ErrorCode.

(** The response to a request of the call, given how many requests the
    process has made before it. *)
Variable server : Z -> Response Data.

(** The waits are computed in floats.  The rate-limit backoff
    [min(MAX_BACKOFF_S, max(5.0, MIN_REQUEST_INTERVAL_S * (2 ** (attempt + 1))))]
    raises [OverflowError] when [2 ** (attempt + 1)] is too large for a
    float, which is from [attempt + 1 = 1024] on; the other backoff,
    [min(MAX_BACKOFF_S, 2.0 * (attempt + 1))], when [attempt + 1] is. *)
Definition backoff_ok (attempt : nat) : bool := (attempt + 1 <? 1024)%nat.

Definition linear_backoff_ok (attempt : nat) : bool :=
  (Z.of_nat (attempt + 1) <? 2 ^ 1024 - 2 ^ 970)%Z.

(** The body of the [try], after [_api_attempts += 1]. *)
Definition verdict (attempt : nat) (resp : Response Data) : Verdict Data :=
  match resp with
  | net_error =>
      if linear_backoff_ok attempt then retry else raise uncaught_exception
  | other_exception => raise uncaught_exception
  | http_response status_code data =>
      if (status_code =? 429)%Z then
        if backoff_ok attempt then retry else raise uncaught_exception
      else if (500 <=? status_code)%Z && (status_code <? 600)%Z then
        if linear_backoff_ok attempt then retry else raise uncaught_exception
      else if negb (status_code =? 200)%Z then raise (status_error status_code)
      else
        match data with
        | None => raise uncaught_exception
        | Some data =>
            if code_truthy (error_code data) then
              if code_is_429 (error_code data) then
                if backoff_ok attempt then retry else raise uncaught_exception
              else raise (api_error (error_code data))
            else return_data data
        end
  end.

(** [for attempt in range(retries)], with [n] turns left. *)
Fixpoint fred_get_loop (n : nat) (attempt : nat) (st : ApiCounters)
  : ApiCounters * (FredError + Data) :=
  match n with
  | O => (st, inl failed_after_retries)
  | S n' =>
      let resp := server (api_attempts st) in
      let st := count_attempt st in
      match verdict attempt resp with
      | retry => fred_get_loop n' (S attempt) (count_retry st)
      | return_data data => (count_success st, inr data)
      | raise e => (st, inl e)
      end
  end.

Definition fred_get (retries : Z) (st : ApiCounters)
  : ApiCounters * (FredError + Data) :=
  fred_get_loop (Z.to_nat retries) 0 st.

End FredGet.

(** ** Pagination of a category ([compute_correlations.py]) *)

Section FetchCategory.
Context {Data : Type}.
Variable error_code : Data -> ErrorCode.

(** The items of [data.get("seriess", [])], each with its ["id"] when it
    has one. *)
Variable seriess : Data -> list (option string).

(** The response to the request for the page at [offset], given how many
    requests the process has made before it. *)
Variable server : Z -> Z -> Response Data.





End FetchCategory.

(** ** numpy, as [pearson_r] calls it, in binary64 *)

(** numpy is not part of the repository.  What follows is what its C and
    Python sources do for the calls of [pearson_r] on one-dimensional
    float64 arrays, with every operation the binary64 operation of the
    kernel (round to nearest, ties to even). *)

(** The blocks of eight of [a]. *)
Fixpoint chunks8 (fuel : nat) (a : list float) : list (list float) :=
  match fuel with
  | O => []
  | S fuel' =>
      match a with
      | [] => []
      | _ :: _ => take 8 a :: chunks8 fuel' (drop 8 a)
      end
  end.

(** The pairwise sum of 8 to 128 values: eight running sums over the
    blocks of eight, combined as a tree, then the remaining values one by
    one. *)
Definition pairwise_block (a : list float) : float :=
  let n := length a in
  let full := (n - n mod 8)%nat in
  let r := fold_left (zip_with PrimFloat.add)
             (chunks8 n (drop 8 (take full a))) (take 8 a) in
  match r with
  | [r0; r1; r2; r3; r4; r5; r6; r7] =>
      fold_left PrimFloat.add (drop full a)
        (((r0 + r1) + (r2 + r3)) + ((r4 + r5) + (r6 + r7)))%float
  | _ => nan
  end.

(** [np.add.reduce] on a contiguous array, numpy's pairwise summation:
    fewer than 8 values are added one by one (from [-0.0]; earlier versions
    start from [0.0], which changes the sign of a zero sum and nothing else),
    up to 128 are summed as a block, and more are split in two parts, the
    first of half the length rounded down to a multiple of 8.  [fuel]
    bounds the depth of the splitting; the length is enough. *)
Fixpoint pairwise_sum_rec (fuel : nat) (a : list float) : float :=
  let n := length a in
  if (n <? 8)%nat then fold_left PrimFloat.add a neg_zero
  else if (n <=? 128)%nat then pairwise_block a
  else
    match fuel with
    | O => nan
    | S fuel' =>
        let n2 := (n / 2)%nat in
        let n2 := (n2 - n2 mod 8)%nat in
        (pairwise_sum_rec fuel' (take n2 a)
         + pairwise_sum_rec fuel' (drop n2 a))%float
    end.

Definition pairwise_sum (a : list float) : float :=
  pairwise_sum_rec (length a) a.

(** [a.mean()]: the sum divided by the count. *)
Definition numpy_mean (a : list float) : float :=
  (pairwise_sum a / float_of_len (length a))%float.

(** [np.std(a)]: the square root of the mean of the squared deviations
    from the mean ([ddof = 0]). *)
Definition numpy_std (a : list float) : float :=
  let arrmean := numpy_mean a in
  let x := map (fun v => (v - arrmean)%float) a in
  let x := map (fun v => (v * v)%float) x in
  PrimFloat.sqrt (pairwise_sum x / float_of_len (length a))%float.

(** The inner product [np.dot] computes for [np.cov].  numpy hands it to
    the BLAS library, which is free in the order of the additions; the
    products are added here in index order.  Where every product and every
    partial sum is exact, as in the examples below, the order does not
    matter. *)
Definition numpy_dot (u v : list float) : float :=
  fold_left PrimFloat.add (zip_with PrimFloat.mul u v) 0%float.

(** [np.clip(c, -1, 1)]; a NaN stays a NaN. *)
Definition numpy_clip (c : float) : float :=
  if PrimFloat.is_nan c then c
  else if PrimFloat.ltb c (-1)%float then (-1)%float
  else if PrimFloat.ltb 1%float c then 1%float
  else c.

(** [np.corrcoef(xs, ys)[0, 1]] for sequences of one length: the
    covariance matrix of the deviations from the means, scaled by
    [1 / (n - 1)], divided by the square roots of its diagonal, first the
    row's then the column's, and clipped. *)
Definition numpy_corrcoef_01 (xs ys : list float) : float :=
  let fact := float_of_len (length xs - 1) in
  let X0 := map (fun v => (v - numpy_mean xs)%float) xs in
  let X1 := map (fun v => (v - numpy_mean ys)%float) ys in
  let scale := (1 / fact)%float in
  let c00 := (numpy_dot X0 X0 * scale)%float in
  let c01 := (numpy_dot X0 X1 * scale)%float in
  let c11 := (numpy_dot X1 X1 * scale)%float in
  numpy_clip (c01 / PrimFloat.sqrt c00 / PrimFloat.sqrt c11)%float.

(** ** Vocabulary of the statements *)

(** [kw in t], as a relation. *)
Definition substring_of (kw t : string) : Prop :=
  exists pre post, t = pre +:+ kw +:+ post.

(** [t] has one of the keywords [kws] as a substring. *)
Definition has_keyword (kws : list string) (t : string) : Prop :=
  exists kw pre post, kw ∈ kws /\ t = pre +:+ kw +:+ post.

(** A title is disqualified when its lower-cased form has a keyword of the
    table as a substring. *)
Definition has_disqualifying_keyword (title : string) : Prop :=
  exists kw pre post, kw ∈ EXCLUDE_KEYWORDS /\ lower title = pre +:+ kw +:+ post.

Definition titles (rows : list Row) : list string := map row_title rows.

(** [next(c for c in rows if c["title"] == t, None)] *)
Definition first_with_title (t : string) (rows : list Row) : option Row :=
  List.find (fun c => bool_decide (row_title c = t)) rows.

(** The three rules of the classification, on the title and [abs_r]. *)
Definition funny_rule (c : Row) : Prop :=
  has_keyword funny_keywords (lower (row_title c)) /\ fgt (row_abs_r c) 0.15 = true.

Definition financial_rule (c : Row) : Prop :=
  has_keyword interesting (row_title c) /\ fgt (row_abs_r c) 0.1 = true.

Definition other_rule (c : Row) : Prop :=
  fgt (row_abs_r c) 0.3 = true.

Definition in_category (k : Category) (c : Row) : bool :=
  bool_decide (classify c = Some k).

Definition title_of (e : Curated) : string := row_title (cur_row e).

(** An entry of the ICE BofA family, kept as financial. *)
Definition financial_baml (e : Curated) : bool :=
  bool_decide (cur_category e = financial) && str_in "ICE BofA" (title_of e).

(** An entry of the CBOE/VIX family, kept as financial. *)
Definition financial_vix (e : Curated) : bool :=
  bool_decide (cur_category e = financial)
  && (str_in "CBOE" (title_of e) || str_in "VIX" (title_of e)).

Definition count_if {A} (p : A -> bool) (l : list A) : nat :=
  length (List.filter p l).

(** Where an entry of [curated] comes from. *)
Definition origin (cl : Classified) (e : Curated) : Prop :=
  match cur_category e with
  | funny => cur_row e ∈ funny_series cl
  | financial => cur_row e ∈ financial_series cl
  | other =>
      cur_row e ∈ other_series cl /\
      str_in "ICE BofA" (title_of e) = false /\
      str_in "CBOE" (title_of e) = false
  end.

(** The counters bound what has been kept of the two families. *)
Definition caps_inv (st : list Curated * Z * Z) : Prop :=
  let '(curated, baml_count, vix_count) := st in
  (Z.of_nat (count_if financial_baml curated) <= baml_count)%Z /\
  (Z.of_nat (count_if financial_baml curated) <= 5)%Z /\
  (Z.of_nat (count_if financial_vix curated) <= vix_count)%Z /\
  (Z.of_nat (count_if financial_vix curated) <= 3)%Z.

(** The order [sorted] arranges by: the keys compare as strings. *)
Definition key_le {A} (key : A -> string) (a b : A) : Prop :=
  String.le (key a) (key b).

(** The elements whose key is [k]. *)
Definition with_key {A} (key : A -> string) (k : string) (l : list A) : list A :=
  List.filter (fun a => bool_decide (key a = k)) l.

(** The observations dated on or before [d]. *)
Definition on_or_before (d : string) (l : list Observation) : list Observation :=
  List.filter (fun o => bool_decide (String.le (o_date o) d)) l.

(** [d0] is the most recent date of [obs] on or before [d]. *)
Definition most_recent_date (obs : list Observation) (d d0 : string) : Prop :=
  d0 ∈ map o_date obs /\ String.le d0 d /\
  forall d', d' ∈ map o_date obs -> String.le d' d -> String.le d' d0.

(** The dates absent from the candidate, in ascending order. *)
Definition absent_dates (obs : list Observation) (target_dates : gset string)
  : list string :=
  List.filter (fun d => bool_decide (d ∉ map o_date obs)) (sorted_set target_dates).

(** The order [sort(key=..., reverse=True)] arranges by: the key of [a] is
    at least the key of [b]. *)
Definition desc_by {A} (key : A -> float) (a b : A) : Prop :=
  PrimFloat.leb (key b) (key a) = true.

(** [x == x]: [x] is not a NaN. *)
Definition not_nan (x : float) : Prop := PrimFloat.is_nan x = false.

(** The title names the ICE BofA family. *)
Definition baml_title (c : Row) : bool := str_in "ICE BofA" (row_title c).

(** The title names the CBOE/VIX family. *)
Definition vix_title (c : Row) : bool :=
  str_in "CBOE" (row_title c) || str_in "VIX" (row_title c).

(** A row carries the catalog fields of a series. *)
Definition row_of_series (row : Row) (s : Series) : Prop :=
  row_id row = s_id s /\ row_title row = s_title s /\
  row_units row = s_units s /\ row_popularity row = s_popularity s.

(** ** Data of the worked examples *)

(** Twenty benchmark dates, so that one missing date is allowed. *)
Definition ex_dates : list string :=
  [ "2024-03-01"; "2024-03-04"; "2024-03-05"; "2024-03-06"; "2024-03-07";
    "2024-03-08"; "2024-03-11"; "2024-03-12"; "2024-03-13"; "2024-03-14";
    "2024-03-15"; "2024-03-18"; "2024-03-19"; "2024-03-20"; "2024-03-21";
    "2024-03-22"; "2024-03-25"; "2024-03-26"; "2024-03-27"; "2024-03-28" ].

(** The value on the [i]-th date is [base + i]. *)
Definition ex_series (base : nat) (ds : list string) : list Observation :=
  imap (fun i d => mkObs d (float_of_len (base + i))) ds.

Definition drop_date (d : string) (l : list Observation) : list Observation :=
  List.filter (fun o => negb (bool_decide (o_date o = d))) l.

Definition ex_sp500 : list Observation := ex_series 5000 ex_dates.

(** A candidate with every benchmark date. *)
Definition ex_full : list Observation := ex_series 100 ex_dates.

(** A candidate without 2024-03-08. *)
Definition ex_gap : list Observation := drop_date "2024-03-08" ex_full.

(** A candidate whose history starts after the first benchmark date. *)
Definition ex_late : list Observation := drop_date "2024-03-01" ex_full.

(** A candidate without two benchmark dates. *)
Definition ex_two : list Observation := drop_date "2024-03-11" ex_gap.

Definition ex_gap_aligned : list Observation :=
  ex_gap ++ [mkObs "2024-03-08" (float_of_len 104)].

Definition ex_candidate : Series := mkSeries "DGS10" "A candidate" "Percent" 50.

Definition ex_row (id title : string) (abs_r : float) (n : Z) : Row :=
  mkRow id title abs_r abs_r (Some n) None [] "Percent" 10.

Definition ex_indeed : Row :=
  ex_row "IHLIDXUSTPSOFTDEVE"
    "Software Development Job Postings on Indeed in the United States" 0.42 41.

Definition ex_rows : list Row :=
  [ ex_row "BAMLH0A0HYM2" "ICE BofA US High Yield Index Option-Adjusted Spread" 0.91 41;
    ex_indeed;
    ex_row "BAMLHE00EHYIOAS" "ICE BofA Euro High Yield Index Option-Adjusted Spread" 0.9 41;
    ex_row "MORTGAGE30US" "30-Year Fixed Rate Mortgage Average in the United States" 0.2 41;
    ex_row "MORTGAGE30USX" "30-Year Fixed Rate Mortgage Average in the United States" 0.7 41;
    ex_row "OBFR" "Overnight Bank Funding Rate" 0.05 41;
    ex_row "RRPONTSYD" "Overnight Reverse Repurchase Agreements" 0.6 41;
    ex_row "SHORT" "Effective Federal Funds Rate" 0.8 12;
    ex_row "BAMLH0A1HYBB" "ICE BofA BB US High Yield Index Option-Adjusted Spread" 0.89 41;
    ex_row "BAMLH0A2HYB" "ICE BofA Single-B US High Yield Index Option-Adjusted Spread" 0.88 41;
    ex_row "BAMLH0A3HYC" "ICE BofA CCC US High Yield Index Option-Adjusted Spread" 0.87 41;
    ex_row "BAMLEMHBHYCRPIOAS" "ICE BofA Emerging Markets High Yield Index Option-Adjusted Spread" 0.86 41;
    ex_row "BAMLEMHYHYLCRPIUSOAS" "ICE BofA Latin America High Yield Index Option-Adjusted Spread" 0.85 41;
    ex_row "BAMLC0A0CMEY" "ICE BofA US Corporate Index Effective Yield" 0.5 41;
    ex_row "VIXCLS" "CBOE Volatility Index: VIX" 0.75 41;
    ex_row "VXNCLS" "CBOE NASDAQ 100 Volatility Index" 0.74 41;
    ex_row "GVZCLS" "CBOE Gold ETF Volatility Index" 0.73 41;
    ex_row "VXGDXCLS" "CBOE Gold Miners ETF Volatility Index" 0.72 41;
    ex_row "VXTYN" "CBOE 10-Year Treasury Note Volatility Futures" 0.71 41 ].

(** The financial rows of the example in the order the financial loop walks
    them. *)
Definition ex_financial_sorted : list Row :=
  sort_desc row_abs_r (financial_series (classify_all (dedup (reliable ex_rows)))).

(** The sixth ICE BofA row and the fourth CBOE/VIX row of that order. *)
Definition ex_sixth_baml : Row :=
  ex_row "BAMLEMHBHYCRPIOAS"
    "ICE BofA Emerging Markets High Yield Index Option-Adjusted Spread" 0.86 41.

Definition ex_fourth_vix : Row :=
  ex_row "VXTYN" "CBOE 10-Year Treasury Note Volatility Futures" 0.71 41.

Definition ex_mortgage : Row :=
  ex_row "MORTGAGE30US" "30-Year Fixed Rate Mortgage Average in the United States" 0.2 41.

(** The example run: the request for UNRATE returns [ex_two], every other
    one [ex_gap]; numpy is replaced by constants. *)
Definition ex_catalog : list Series :=
  [ ex_candidate;
    mkSeries "SP500" "S&P 500" "Index" 90;
    mkSeries "UNRATE" "Unemployment Rate" "Percent" 80 ].

Definition ex_fetch (i : nat) (sid : string) : option (list Observation) :=
  if String.eqb sid "UNRATE" then Some ex_two else Some ex_gap.

Definition ex_result_row : Row :=
  mkRow "DGS10" "A candidate" 0.5 0.5 (Some 20%Z) None ["2024-03-08"] "Percent" 50.

Definition ex_loop_state : LoopState := mkLoopState [ex_result_row] 1 1 0.

Definition ex_main_loop : string + LoopState :=
  main_loop (fun _ => 1%float) (fun _ _ => 0.5%float) (fun x => x) ex_fetch
    1 ex_sp500 0 (filtered ∅ ex_catalog) loop_init.

Definition ex_run : RunError + list Row :=
  run (fun _ => 1%float) (fun _ _ => 0.5%float) (fun x => x) ex_fetch
    ∅ ex_catalog ex_sp500.



(** Titles with the two code points outside ASCII that lower-case into
    ASCII: the Kelvin sign for a K, the capital I with dot above for an I. *)
Definition KELVIN_SIGN : string :=
  String "226" (String "132" (String "170" EmptyString)).

Definition CAPITAL_I_WITH_DOT : string :=
  String "196" (String "176" EmptyString).

Definition ex_kelvin_title : string := "NI" +:+ KELVIN_SIGN +:+ "KEI Average".

Definition ex_dotted_title : string := "NIKKE" +:+ CAPITAL_I_WITH_DOT +:+ " 225".

Definition ex_kelvin_row : Row :=
  ex_row "SHELVES" ("STOC" +:+ KELVIN_SIGN +:+ "ING SHELVES") 0.42 41.

Definition ex_dotted_row : Row :=
  ex_row "MEDIA" ("MED" +:+ CAPITAL_I_WITH_DOT +:+ "A") 0.42 41.

(** Ten benchmark dates, a candidate with the value 0.3 on each of them,
    and the sequences 1, ..., 10 and ten times 0.3 and 0.5. *)
Definition ex_sp500_10 : list Observation := ex_series 5000 (take 10 ex_dates).

Definition ex_flat : list Observation :=
  map (fun d => mkObs d 0.3%float) (take 10 ex_dates).

Definition ex_ramp : list float := map float_of_len (seq 1 10).

Definition ex_flat_values : list float := replicate 10 0.3%float.

Definition ex_half_values : list float := replicate 10 0.5%float.

(** * Part II: properties *)

(** ** Strings *)

Lemma startswith_spec kw s :
  startswith kw s = true <-> exists post, s = kw +:+ post.
Proof.
  revert s. induction kw as [|a kw IH]; intros s; simpl.
  - split; [intros _; by exists s | done].
  - destruct s as [|b s].
    + split; [done | intros [post H]; discriminate H].
    + case_decide as Hab.
      * subst b. rewrite IH. split; intros [post H]; exists post.
        -- by rewrite H.
        -- by inversion H.
      * split; [done | intros [post H]; inversion H; congruence].
Qed.

(** [str_in] is the substring relation. *)
Lemma str_in_spec kw s :
  str_in kw s = true <-> exists pre post, s = pre +:+ kw +:+ post.
Proof.
  induction s as [|b s IH]; simpl.
  - rewrite orb_false_r, startswith_spec. split.
    + intros [post H]. by exists EmptyString, post.
    + intros [pre [post H]]. destruct pre; [by exists post | discriminate H].
  - rewrite orb_true_iff, startswith_spec, IH. split.
    + intros [[post H] | [pre [post H]]].
      * by exists EmptyString, post.
      * exists (String b pre), post. by rewrite H.
    + intros [pre [post H]]. destruct pre as [|c pre].
      * left. by exists post.
      * right. exists pre, post. by inversion H.
Qed.

Lemma any_in_spec kws t :
  any_in kws t = true <-> exists kw, kw ∈ kws /\ str_in kw t = true.
Proof.
  unfold any_in. rewrite existsb_exists.
  split; intros [kw [H1 H2]]; exists kw; split; try done;
    by apply list_elem_of_In.
Qed.

(** ** Exclusion filter *)

Lemma is_excluded_iff s :
  is_excluded s = true <->
  s_id s ∈ EXCLUDE_IDS \/ has_disqualifying_keyword (s_title s).
Proof.
  unfold is_excluded, has_disqualifying_keyword.
  destruct (decide (s_id s ∈ EXCLUDE_IDS)) as [Hid|Hid].
  - split; intros _; [left; exact Hid | reflexivity].
  - rewrite any_in_spec. split.
    + intros [kw [Hkw Hin]]. right. apply str_in_spec in Hin as [pre [post H]].
      exists kw, pre, post. split; assumption.
    + intros [Hc | [kw [pre [post [Hkw H]]]]]; [destruct (Hid Hc)|].
      exists kw. split; [assumption|]. apply str_in_spec.
      exists pre, post. assumption.
Qed.

Lemma excluded_iff cat s :
  excluded cat s = true <->
  s_id s ∈ effective_excluded_ids cat \/ has_disqualifying_keyword (s_title s).
Proof.
  unfold excluded, kept. rewrite negb_true_iff, andb_false_iff.
  rewrite bool_decide_eq_false, negb_false_iff, is_excluded_iff.
  unfold effective_excluded_ids. split.
  - intros [H | [H | H]].
    + left. apply dec_stable. exact H.
    + left. apply elem_of_union. left. exact H.
    + right. exact H.
  - intros [H | H]; [left; intros Hn; exact (Hn H) | right; right; exact H].
Qed.

Lemma filtered_iff cat all_series s :
  s ∈ filtered cat all_series <-> s ∈ all_series /\ excluded cat s = false.
Proof.
  unfold filtered, excluded. rewrite negb_false_iff.
  rewrite !list_elem_of_In, filter_In. reflexivity.
Qed.

Lemma gold_title_keyword :
  any_in EXCLUDE_KEYWORDS (lower "Gold Price, London") = true.
Proof. vm_compute. reflexivity. Qed.

Lemma kelvin_title_keyword :
  any_in EXCLUDE_KEYWORDS (lower ex_kelvin_title) = true.
Proof. vm_compute. reflexivity. Qed.

Lemma dotted_title_keyword :
  any_in EXCLUDE_KEYWORDS (lower ex_dotted_title) = true.
Proof. vm_compute. reflexivity. Qed.

Lemma claims_title_no_keyword :
  any_in EXCLUDE_KEYWORDS (lower "Initial Claims, Unemployment Insurance") = false.
Proof. vm_compute. reflexivity. Qed.

(** C7. The exclusion decision of the run ([filtered] drops exactly the
    series for which it is true) holds if and only if the id is in the
    exclusion identifier set (the static denylist united with the ids of the
    external category) or the lower-cased title has a disqualifying keyword
    as a substring.  A series titled "Gold Price, London" is excluded
    whatever its id; one titled "Initial Claims, Unemployment Insurance" is
    excluded only through its id.  The lower-casing is Python's where it
    can reach a keyword: "NI\u212aKEI Average" (Kelvin sign) and
    "NIKKE\u0130 225" (capital I with dot above) are excluded through the
    keyword "nikkei". *)
Theorem exclusion_decision :
  (forall cat s,
     excluded cat s = true <->
     s_id s ∈ EXCLUDE_IDS ∪ cat \/ has_disqualifying_keyword (s_title s)) /\
  (forall cat all_series s,
     s ∈ filtered cat all_series <-> s ∈ all_series /\ excluded cat s = false) /\
  (forall cat sid units pop,
     excluded cat (mkSeries sid "Gold Price, London" units pop) = true) /\
  (forall cat sid units pop,
     excluded cat
       (mkSeries sid "Initial Claims, Unemployment Insurance" units pop)
     = bool_decide (sid ∈ EXCLUDE_IDS ∪ cat)) /\
  (forall cat sid units pop,
     excluded cat (mkSeries sid ex_kelvin_title units pop) = true /\
     excluded cat (mkSeries sid ex_dotted_title units pop) = true).
Proof.
  split; [exact excluded_iff|]. split; [exact filtered_iff|]. split; [|split].
  3:{ intros cat sid units pop. unfold excluded, kept, is_excluded.
      cbn [s_id s_title]. rewrite kelvin_title_keyword, dotted_title_keyword.
      destruct (decide (sid ∈ EXCLUDE_IDS)); cbn [negb];
        rewrite andb_false_r; split; reflexivity. }
  - intros cat sid units pop. unfold excluded, kept, is_excluded.
    cbn [s_id s_title]. rewrite gold_title_keyword.
    destruct (decide (sid ∈ EXCLUDE_IDS)); cbn [negb];
      rewrite andb_false_r; reflexivity.
  - intros cat sid units pop. unfold excluded, kept, is_excluded.
    cbn [s_id s_title]. rewrite claims_title_no_keyword.
    unfold effective_excluded_ids.
    destruct (decide (sid ∈ EXCLUDE_IDS)) as [Hid|Hid]; cbn [negb].
    + rewrite andb_false_r. cbn [negb]. symmetry. apply bool_decide_eq_true.
      apply elem_of_union. left. exact Hid.
    + rewrite andb_true_r. destruct (decide (sid ∈ EXCLUDE_IDS ∪ cat)) as [H|H].
      * rewrite (bool_decide_eq_true_2 _ H).
        rewrite bool_decide_eq_false_2; [reflexivity|]. intros Hn. exact (Hn H).
      * rewrite (bool_decide_eq_false_2 _ H).
        rewrite bool_decide_eq_true_2; [reflexivity|]. exact H.
Qed.

(** ** Deduplication *)

Lemma dedup_seen rows :
  fst (fold_left dedup_step rows (∅, [])) = list_to_set (titles rows).
Proof.
  induction rows as [|c pre IH] using rev_ind; [reflexivity|].
  rewrite fold_left_app. cbn [fold_left].
  destruct (fold_left dedup_step pre (∅, [])) as [seen acc] eqn:E.
  cbn [fst] in IH. subst seen. unfold titles. rewrite map_app, list_to_set_app_L.
  cbn [map list_to_set]. unfold dedup_step. case_decide as Hc; cbn [fst].
  - set_solver.
  - set_solver.
Qed.

Lemma dedup_nil : dedup [] = [].
Proof. reflexivity. Qed.

Lemma dedup_snoc pre c :
  dedup (pre ++ [c]) =
  dedup pre ++ (if decide (row_title c ∈ titles pre) then [] else [c]).
Proof.
  unfold dedup. rewrite fold_left_app. cbn [fold_left].
  pose proof (dedup_seen pre) as Hs.
  destruct (fold_left dedup_step pre (∅, [])) as [seen acc].
  cbn [fst snd] in *. subst seen. unfold dedup_step.
  destruct (decide (row_title c ∈ titles pre)) as [Hin|Hin].
  - rewrite decide_False; [by rewrite app_nil_r|].
    intros Hn. apply Hn. by apply elem_of_list_to_set.
  - rewrite decide_True; [done|]. by rewrite elem_of_list_to_set.
Qed.

Lemma dedup_titles rows t : t ∈ titles (dedup rows) <-> t ∈ titles rows.
Proof.
  induction rows as [|c pre IH] using rev_ind; [done|].
  rewrite dedup_snoc. unfold titles in *. rewrite !map_app, !elem_of_app, IH.
  case_decide as Hc; cbn [map]; set_solver.
Qed.

Lemma dedup_NoDup rows : NoDup (titles (dedup rows)).
Proof.
  induction rows as [|c pre IH] using rev_ind; [constructor|].
  rewrite dedup_snoc. case_decide as Hc; [by rewrite app_nil_r|].
  unfold titles. rewrite map_app. apply NoDup_app. split; [done|]. split.
  - intros t Ht Ht'. cbn in Ht'. apply list_elem_of_singleton in Ht'. subst t.
    apply Hc. apply (dedup_titles pre). exact Ht.
  - cbn. apply NoDup_singleton.
Qed.

Lemma dedup_sublist rows : dedup rows `sublist_of` rows.
Proof.
  induction rows as [|c pre IH] using rev_ind; [done|].
  rewrite dedup_snoc. apply sublist_app; [done|].
  case_decide; [apply sublist_nil_l | done].
Qed.

Lemma dedup_idempotent rows : dedup (dedup rows) = dedup rows.
Proof.
  induction rows as [|c pre IH] using rev_ind; [done|].
  rewrite dedup_snoc. case_decide as Hc; [by rewrite app_nil_r|].
  rewrite dedup_snoc, IH. rewrite decide_False; [done|].
  by rewrite dedup_titles.
Qed.

Lemma find_snoc {A} (p : A -> bool) l x :
  List.find p (l ++ [x]) =
  match List.find p l with
  | Some y => Some y
  | None => if p x then Some x else None
  end.
Proof.
  induction l as [|a l IH]; cbn; [done|]. destruct (p a); [done|]. exact IH.
Qed.

Lemma first_with_title_None t rows :
  first_with_title t rows = None <-> t ∉ titles rows.
Proof.
  unfold first_with_title, titles. induction rows as [|c rows IH]; cbn.
  - split; [intros _; apply not_elem_of_nil | done].
  - rewrite not_elem_of_cons. case_bool_decide as Hc.
    + split; [done | intros [? _]; congruence].
    + rewrite IH. split; [intros ?; split; congruence | by intros [_ ?]].
Qed.

Lemma dedup_first rows t :
  first_with_title t (dedup rows) = first_with_title t rows.
Proof.
  induction rows as [|c pre IH] using rev_ind; [done|].
  rewrite dedup_snoc. unfold first_with_title in *.
  rewrite find_snoc. case_decide as Hc.
  - rewrite app_nil_r, IH.
    destruct (List.find _ pre) eqn:E; [done|].
    apply (first_with_title_None t pre) in E.
    case_bool_decide; [congruence | done].
  - by rewrite find_snoc, IH.
Qed.

(** C8. Deduplication walks the rows in input order and keeps a row exactly
    when no earlier row has its title; so the output has every title of the
    input once, carried by the first row with that title, and deduplicating
    the output again changes nothing. *)
Theorem dedup_first_occurrence_idempotent :
  dedup [] = [] /\
  (forall pre c,
     dedup (pre ++ [c]) =
     dedup pre ++ (if decide (row_title c ∈ titles pre) then [] else [c])) /\
  (forall rows,
     NoDup (titles (dedup rows)) /\
     dedup rows `sublist_of` rows /\
     forall t, first_with_title t (dedup rows) = first_with_title t rows) /\
  (forall rows, dedup (dedup rows) = dedup rows).
Proof.
  split; [exact dedup_nil|]. split; [exact dedup_snoc|]. split.
  - intros rows. split; [apply dedup_NoDup|]. split; [apply dedup_sublist|].
    intros t. apply dedup_first.
  - exact dedup_idempotent.
Qed.

(** ** Loops and descending sort *)

Lemma fold_left_inv {S A} (P : S -> Prop) (step : S -> A -> S) l init :
  P init ->
  (forall st x, x ∈ l -> P st -> P (step st x)) ->
  P (fold_left step l init).
Proof.
  revert init. induction l as [|x l IH]; intros init Hinit Hstep; [exact Hinit|].
  cbn [fold_left]. apply IH.
  - apply Hstep; [apply list_elem_of_here | exact Hinit].
  - intros st y Hy. apply Hstep. by apply list_elem_of_further.
Qed.

Lemma insert_desc_perm {A} (key : A -> float) x l :
  insert_desc key x l ≡ₚ x :: l.
Proof.
  induction l as [|y l IH]; cbn; [done|].
  destruct (PrimFloat.ltb (key x) (key y)); [|done].
  rewrite IH. apply Permutation_swap.
Qed.

Lemma sort_desc_perm {A} (key : A -> float) l : sort_desc key l ≡ₚ l.
Proof.
  unfold sort_desc. induction l as [|x l IH]; cbn; [done|].
  rewrite insert_desc_perm. by rewrite IH.
Qed.

Lemma sort_desc_elem_of {A} (key : A -> float) l x :
  x ∈ sort_desc key l <-> x ∈ l.
Proof. by rewrite sort_desc_perm. Qed.

(** ** Classification *)

Lemma any_in_has_keyword kws t : any_in kws t = true <-> has_keyword kws t.
Proof.
  rewrite any_in_spec. unfold has_keyword. split.
  - intros [kw [Hkw Hin]]. apply str_in_spec in Hin as [pre [post H]].
    by exists kw, pre, post.
  - intros [kw [pre [post [Hkw H]]]]. exists kw. split; [done|].
    apply str_in_spec. by exists pre, post.
Qed.

Lemma funny_rule_b c :
  funny_rule c <-> is_funny c && fgt (row_abs_r c) 0.15 = true.
Proof.
  unfold funny_rule, is_funny. rewrite andb_true_iff, any_in_has_keyword.
  reflexivity.
Qed.

Lemma financial_rule_b c :
  financial_rule c <-> is_interesting_financial c && fgt (row_abs_r c) 0.1 = true.
Proof.
  unfold financial_rule, is_interesting_financial.
  rewrite andb_true_iff, any_in_has_keyword. reflexivity.
Qed.

(** The chain on three opaque booleans. *)
Lemma first_match_chain (b1 b2 b3 : bool) :
  let k := if b1 then Some funny else if b2 then Some financial
           else if b3 then Some other else None in
  (k = Some funny <-> b1 = true) /\
  (k = Some financial <-> b1 <> true /\ b2 = true) /\
  (k = Some other <-> b1 <> true /\ b2 <> true /\ b3 = true) /\
  (k = None <-> b1 <> true /\ b2 <> true /\ b3 <> true).
Proof. destruct b1, b2, b3; cbn; intuition congruence. Qed.

Lemma classify_rules c :
  (classify c = Some funny <-> funny_rule c) /\
  (classify c = Some financial <-> ~ funny_rule c /\ financial_rule c) /\
  (classify c = Some other <->
     ~ funny_rule c /\ ~ financial_rule c /\ other_rule c) /\
  (classify c = None <->
     ~ funny_rule c /\ ~ financial_rule c /\ ~ other_rule c).
Proof.
  rewrite funny_rule_b, financial_rule_b. unfold other_rule, classify.
  apply (first_match_chain (is_funny c && fgt (row_abs_r c) 0.15)
           (is_interesting_financial c && fgt (row_abs_r c) 0.1)
           (fgt (row_abs_r c) 0.3)).
Qed.

Lemma classify_funny c : classify c = Some funny <-> funny_rule c.
Proof. apply (classify_rules c). Qed.

Lemma classify_financial c :
  classify c = Some financial <-> ~ funny_rule c /\ financial_rule c.
Proof. apply (classify_rules c). Qed.

Lemma classify_other c :
  classify c = Some other <-> ~ funny_rule c /\ ~ financial_rule c /\ other_rule c.
Proof. apply (classify_rules c). Qed.

Lemma classify_None c :
  classify c = None <-> ~ funny_rule c /\ ~ financial_rule c /\ ~ other_rule c.
Proof. apply (classify_rules c). Qed.

Lemma classify_fold l st :
  fold_left classify_step l st =
  mkClassified (funny_series st ++ List.filter (in_category funny) l)
               (financial_series st ++ List.filter (in_category financial) l)
               (other_series st ++ List.filter (in_category other) l).
Proof.
  revert st. induction l as [|c l IH]; intros [f fi o]; cbn [fold_left].
  - cbn [List.filter funny_series financial_series other_series].
    rewrite !app_nil_r. reflexivity.
  - rewrite IH. unfold classify_step, in_category. cbn [List.filter].
    generalize (classify c). intros [[]|];
      cbn [funny_series financial_series other_series];
      repeat (rewrite bool_decide_eq_false_2 by discriminate);
      repeat (rewrite bool_decide_eq_true_2 by reflexivity);
      rewrite <- ?app_assoc; reflexivity.
Qed.

Lemma classify_all_spec l :
  classify_all l =
  mkClassified (List.filter (in_category funny) l)
               (List.filter (in_category financial) l)
               (List.filter (in_category other) l).
Proof. unfold classify_all. by rewrite classify_fold. Qed.

Lemma in_filter_category k l c :
  c ∈ List.filter (in_category k) l <-> c ∈ l /\ classify c = Some k.
Proof.
  rewrite !list_elem_of_In, filter_In. unfold in_category.
  by rewrite bool_decide_eq_true.
Qed.

(** ** The curated list *)

Lemma count_if_app {A} (p : A -> bool) l1 l2 :
  count_if p (l1 ++ l2) = count_if p l1 + count_if p l2.
Proof. unfold count_if. by rewrite List.filter_app, length_app. Qed.

Lemma count_if_perm {A} (p : A -> bool) l1 l2 :
  l1 ≡ₚ l2 -> count_if p l1 = count_if p l2.
Proof.
  unfold count_if. induction 1 as [|x l l' _ IH|x y l|l l' l'' _ IH1 _ IH2]; cbn.
  - done.
  - destruct (p x); cbn; by rewrite IH.
  - by destruct (p x), (p y).
  - by rewrite IH1.
Qed.

Lemma count_if_none {A} (p : A -> bool) l :
  (forall x, x ∈ l -> p x = false) -> count_if p l = 0.
Proof.
  unfold count_if. induction l as [|x l IH]; intros H; cbn; [done|].
  rewrite (H x) by apply list_elem_of_here.
  apply IH. intros y Hy. apply H. by apply list_elem_of_further.
Qed.

Lemma fold_append_map {A B} (f : A -> B) l init :
  fold_left (fun cur c => cur ++ [f c]) l init = init ++ map f l.
Proof.
  revert init. induction l as [|x l IH]; intros init; cbn.
  - by rewrite app_nil_r.
  - by rewrite IH, <- app_assoc.
Qed.

Lemma financial_baml_mk c :
  financial_baml (mkCurated c financial) = str_in "ICE BofA" (row_title c).
Proof.
  unfold financial_baml, title_of. cbn [cur_row cur_category].
  by rewrite bool_decide_eq_true_2.
Qed.

Lemma financial_vix_mk c :
  financial_vix (mkCurated c financial) =
  str_in "CBOE" (row_title c) || str_in "VIX" (row_title c).
Proof.
  unfold financial_vix, title_of. cbn [cur_row cur_category].
  by rewrite bool_decide_eq_true_2.
Qed.

Lemma financial_step_caps st c : caps_inv st -> caps_inv (financial_step st c).
Proof.
  destruct st as [[cur b] v]. unfold caps_inv, financial_step.
  intros (Hb & Hb5 & Hv & Hv3).
  assert (Hnew : forall p : Curated -> bool,
            count_if p (cur ++ [mkCurated c financial]) =
            count_if p cur + (if p (mkCurated c financial) then 1 else 0)).
  { intros p. rewrite count_if_app. unfold count_if. cbn.
    by destruct (p _). }
  destruct (str_in "ICE BofA" (row_title c)) eqn:Eb;
    destruct (str_in "CBOE" (row_title c)) eqn:Ec;
    destruct (str_in "VIX" (row_title c)) eqn:Ev; cbn [andb orb];
    try destruct (Z.ltb_spec 5 (b + 1)); try destruct (Z.ltb_spec 3 (v + 1));
    rewrite ?Hnew, ?financial_baml_mk, ?financial_vix_mk, ?Eb, ?Ec, ?Ev;
    cbn [andb orb]; lia.
Qed.

Lemma financial_step_origin cl st c :
  c ∈ financial_series cl ->
  (forall e, e ∈ st.1.1 -> origin cl e) ->
  forall e, e ∈ (financial_step st c).1.1 -> origin cl e.
Proof.
  destruct st as [[cur b] v]. unfold financial_step. cbn [fst].
  intros Hc Hcur e.
  destruct (str_in "ICE BofA" (row_title c) && _); cbn [fst]; [apply Hcur|].
  destruct ((str_in "CBOE" (row_title c) || _) && _); cbn [fst]; [apply Hcur|].
  rewrite elem_of_app, list_elem_of_singleton. intros [He | ->]; [by apply Hcur|].
  exact Hc.
Qed.

Lemma other_step_origin cl cur c :
  c ∈ other_series cl ->
  (forall e, e ∈ cur -> origin cl e) ->
  forall e, e ∈ other_step cur c -> origin cl e.
Proof.
  unfold other_step. intros Hc Hcur e.
  destruct (str_in "ICE BofA" (row_title c)) eqn:Eb; [apply Hcur|].
  destruct (str_in "CBOE" (row_title c)) eqn:Ec; cbn [orb]; [apply Hcur|].
  rewrite elem_of_app, list_elem_of_singleton. intros [He | ->]; [by apply Hcur|].
  unfold origin, title_of. cbn [cur_row cur_category]. done.
Qed.

Lemma other_step_count (p : Curated -> bool) cur c :
  (forall r, p (mkCurated r other) = false) ->
  count_if p (other_step cur c) = count_if p cur.
Proof.
  intros Hp. unfold other_step. case_match; [done|].
  rewrite count_if_app. unfold count_if at 2. cbn. rewrite Hp. cbn. lia.
Qed.

Lemma financial_loop_facts cl init :
  (forall e, e ∈ init -> origin cl e) ->
  count_if financial_baml init = 0 ->
  count_if financial_vix init = 0 ->
  let st := fold_left financial_step (sort_desc row_abs_r (financial_series cl))
              (init, 0%Z, 0%Z) in
  (forall e, e ∈ st.1.1 -> origin cl e) /\ caps_inv st.
Proof.
  intros Hinit Hb Hv st. subst st. split.
  - apply (fold_left_inv (fun st => forall e, e ∈ st.1.1 -> origin cl e)).
    + exact Hinit.
    + intros st c Hc. apply financial_step_origin.
      by apply sort_desc_elem_of in Hc.
  - apply (fold_left_inv caps_inv).
    + unfold caps_inv. rewrite Hb, Hv. lia.
    + intros st c _. apply financial_step_caps.
Qed.

Lemma funny_entries_origin cl e :
  e ∈ map (fun c => mkCurated c funny) (sort_desc row_abs_r (funny_series cl)) ->
  origin cl e.
Proof.
  rewrite list_elem_of_fmap. intros [c [-> Hc]].
  unfold origin. cbn [cur_category cur_row]. by apply sort_desc_elem_of in Hc.
Qed.

Lemma funny_entries_count (p : Curated -> bool) (l : list Row) :
  (forall r, p (mkCurated r funny) = false) ->
  count_if p (map (fun c => mkCurated c funny) l) = 0.
Proof.
  intros Hp. apply count_if_none. intros e He.
  apply list_elem_of_fmap in He as [c [-> _]]. apply Hp.
Qed.

Lemma financial_baml_not k r : k <> financial -> financial_baml (mkCurated r k) = false.
Proof.
  intros Hk. unfold financial_baml. cbn [cur_category].
  by rewrite bool_decide_eq_false_2.
Qed.

Lemma financial_vix_not k r : k <> financial -> financial_vix (mkCurated r k) = false.
Proof.
  intros Hk. unfold financial_vix. cbn [cur_category].
  by rewrite bool_decide_eq_false_2.
Qed.

Lemma build_curated_facts cl :
  (forall e, e ∈ build_curated cl -> origin cl e) /\
  count_if financial_baml (build_curated cl) <= 5 /\
  count_if financial_vix (build_curated cl) <= 3.
Proof.
  unfold build_curated. rewrite fold_append_map, app_nil_l.
  destruct (financial_loop_facts cl
              (map (fun c => mkCurated c funny) (sort_desc row_abs_r (funny_series cl))))
    as [Ho Hc].
  { apply funny_entries_origin. }
  { apply funny_entries_count. intros r. by apply financial_baml_not. }
  { apply funny_entries_count. intros r. by apply financial_vix_not. }
  destruct (fold_left financial_step _ _) as [[cur b] v].
  cbn [fst] in Ho. unfold caps_inv in Hc. destruct Hc as (_ & Hb5 & _ & Hv3).
  split; [|split].
  - apply (fold_left_inv (fun cur => forall e, e ∈ cur -> origin cl e)); [exact Ho|].
    intros st c Hc. apply other_step_origin. by apply sort_desc_elem_of in Hc.
  - apply (fold_left_inv (fun cur => count_if financial_baml cur <= 5)); [lia|].
    intros st c _ H. rewrite other_step_count; [done|].
    intros r. by apply financial_baml_not.
  - apply (fold_left_inv (fun cur => count_if financial_vix cur <= 3)); [lia|].
    intros st c _ H. rewrite other_step_count; [done|].
    intros r. by apply financial_vix_not.
Qed.

(** Float order: a value above 0.3 is above 0.1. *)
Lemma fgt_03_01 x : fgt x 0.3 = true -> fgt x 0.1 = true.
Proof.
  unfold fgt. rewrite !FloatAxioms.ltb_spec.
  replace (FloatOps.Prim2SF 0.3) with (SpecFloat.S754_finite false 5404319552844595 (-54))
    by (vm_compute; reflexivity).
  replace (FloatOps.Prim2SF 0.1) with (SpecFloat.S754_finite false 7205759403792794 (-56))
    by (vm_compute; reflexivity).
  destruct (FloatOps.Prim2SF x) as [s|s| |s m e]; try done.
  unfold SpecFloat.SFltb, SpecFloat.SFcompare. destruct s; [done|].
  destruct (Z.compare_spec (-54) e) as [<-|Hlt|Hgt]; [done| |done].
  intros _. destruct (Z.compare_spec (-56) e); [lia|done|lia].
Qed.

Lemma series_of_classify_all D c :
  (c ∈ funny_series (classify_all D) <-> c ∈ D /\ classify c = Some funny) /\
  (c ∈ financial_series (classify_all D) <-> c ∈ D /\ classify c = Some financial) /\
  (c ∈ other_series (classify_all D) <-> c ∈ D /\ classify c = Some other).
Proof.
  rewrite classify_all_spec. cbn [funny_series financial_series other_series].
  rewrite !in_filter_category. done.
Qed.

Lemma curate_entry all_corr e :
  e ∈ curate all_corr ->
  cur_row e ∈ dedup (reliable all_corr) /\
  classify (cur_row e) = Some (cur_category e) /\
  (cur_category e = other ->
   str_in "ICE BofA" (title_of e) = false /\ str_in "CBOE" (title_of e) = false).
Proof.
  unfold curate. rewrite sort_desc_elem_of. intros He.
  apply (build_curated_facts (classify_all (dedup (reliable all_corr)))) in He.
  unfold origin in He.
  destruct (series_of_classify_all (dedup (reliable all_corr)) (cur_row e))
    as (Hf & Hfi & Ho).
  destruct (cur_category e).
  - apply Hf in He as [? ?]. done.
  - apply Hfi in He as [? ?]. done.
  - destruct He as (He & ? & ?). apply Ho in He as [? ?]. done.
Qed.

(** C5. A row that survives deduplication goes to exactly the list its first
    matching rule names: funny when the lower-cased title has a humor keyword
    and [abs_r > 0.15]; otherwise financial when the title has a finance
    keyword and [abs_r > 0.1]; otherwise other when [abs_r > 0.3].  An entry of
    the curated output carries the category of that rule, and a row that
    matches no rule has no entry in the output. *)
Theorem classification_first_match all_corr c :
  c ∈ dedup (reliable all_corr) ->
  (c ∈ funny_series (classify_all (dedup (reliable all_corr))) <-> funny_rule c) /\
  (c ∈ financial_series (classify_all (dedup (reliable all_corr))) <->
     ~ funny_rule c /\ financial_rule c) /\
  (c ∈ other_series (classify_all (dedup (reliable all_corr))) <->
     ~ funny_rule c /\ ~ financial_rule c /\ other_rule c) /\
  (forall e, e ∈ curate all_corr -> cur_row e = c ->
     match cur_category e with
     | funny => funny_rule c
     | financial => ~ funny_rule c /\ financial_rule c
     | other => ~ funny_rule c /\ ~ financial_rule c /\ other_rule c
     end) /\
  (~ funny_rule c -> ~ financial_rule c -> ~ other_rule c ->
   forall e, e ∈ curate all_corr -> cur_row e <> c).
Proof.
  intros Hc.
  destruct (series_of_classify_all (dedup (reliable all_corr)) c) as (Hf & Hfi & Ho).
  destruct (classify_rules c) as (Rf & Rfi & Ro & Rn).
  split; [|split; [|split; [|split]]].
  - rewrite Hf, <- Rf. intuition.
  - rewrite Hfi, <- Rfi. intuition.
  - rewrite Ho, <- Ro. intuition.
  - intros e He <-. apply curate_entry in He as (_ & Hk & _).
    destruct (classify_rules (cur_row e)) as (Rf' & Rfi' & Ro' & _).
    destruct (cur_category e); [by apply Rf' | by apply Rfi' | by apply Ro'].
  - intros N1 N2 N3 e He <-. apply curate_entry in He as (_ & Hk & _).
    assert (classify (cur_row e) = None) as Hn by (apply Rn; done).
    congruence.
Qed.

(** C6. In the curated output at most 5 financial entries have a title with
    "ICE BofA" and at most 3 financial entries have a title with "CBOE" or
    "VIX"; no entry of the other category has a title with "ICE BofA",
    "CBOE" or "VIX". *)
Theorem family_caps all_corr :
  count_if financial_baml (curate all_corr) <= 5 /\
  count_if financial_vix (curate all_corr) <= 3 /\
  (forall e, e ∈ curate all_corr -> cur_category e = other ->
     ~ substring_of "ICE BofA" (title_of e) /\
     ~ substring_of "CBOE" (title_of e) /\
     ~ substring_of "VIX" (title_of e)).
Proof.
  destruct (build_curated_facts (classify_all (dedup (reliable all_corr))))
    as (_ & Hb & Hv).
  split; [|split].
  - unfold curate. by rewrite (count_if_perm _ _ _ (sort_desc_perm _ _)).
  - unfold curate. by rewrite (count_if_perm _ _ _ (sort_desc_perm _ _)).
  - intros e He Hk. apply curate_entry in He as (_ & Hcl & Hfam).
    destruct (Hfam Hk) as [Hb' Hc']. unfold substring_of.
    rewrite <- !str_in_spec, Hb', Hc'. split; [done|]. split; [done|].
    intros Hvix. rewrite Hk in Hcl.
    apply classify_other in Hcl as (_ & Nfi & Ho). apply Nfi. split.
    + apply any_in_has_keyword, any_in_spec. exists "VIX". split; [|exact Hvix].
      unfold interesting. apply list_elem_of_here.
    + by apply fgt_03_01.
Qed.

(** ** Sorting by a string key *)

Section sorted_by_facts.
Context {A : Type} (key : A -> string).

Global Instance key_le_refl : Reflexive (key_le key).
Proof. intros x. unfold key_le. done. Qed.

Lemma insert_by_perm x l : insert_by key x l ≡ₚ x :: l.
Proof.
  induction l as [|y l IH]; cbn; [done|].
  case_decide; [done|]. rewrite IH. apply Permutation_swap.
Qed.

Lemma sorted_by_perm l : sorted_by key l ≡ₚ l.
Proof.
  unfold sorted_by. induction l as [|x l IH]; cbn; [done|].
  by rewrite insert_by_perm, IH.
Qed.

Lemma sorted_by_elem_of l x : x ∈ sorted_by key l <-> x ∈ l.
Proof. by rewrite sorted_by_perm. Qed.

Lemma insert_by_sorted x l :
  StronglySorted (key_le key) l -> StronglySorted (key_le key) (insert_by key x l).
Proof.
  induction 1 as [|y l Hs IH Hy]; cbn.
  - repeat constructor.
  - case_decide as Hxy.
    + constructor; [by constructor|]. constructor; [done|].
      eapply Forall_impl; [exact Hy|]. intros z Hz. unfold key_le in *.
      by etrans.
    + constructor; [done|]. rewrite insert_by_perm. constructor; [|done].
      unfold key_le. destruct (total String.le (key x) (key y)); done.
Qed.

Lemma sorted_by_sorted l : StronglySorted (key_le key) (sorted_by key l).
Proof.
  unfold sorted_by. induction l as [|x l IH]; cbn; [constructor|].
  by apply insert_by_sorted.
Qed.

(** Stability: elements with equal keys keep their order. *)
Lemma insert_by_with_key k x l :
  with_key key k (insert_by key x l) = with_key key k (x :: l).
Proof.
  unfold with_key. induction l as [|y l IH]; [done|]. cbn [insert_by].
  case_decide as Hxy; [done|]. cbn [List.filter] in *. rewrite IH.
  case_bool_decide as Hx; [|done]. case_bool_decide as Hy; [|done].
  exfalso. apply Hxy. by rewrite Hx, Hy.
Qed.

Lemma sorted_by_with_key k l : with_key key k (sorted_by key l) = with_key key k l.
Proof.
  unfold sorted_by. induction l as [|x l IH]; [done|]. cbn [foldr].
  rewrite insert_by_with_key. unfold with_key in *. cbn [List.filter].
  by rewrite IH.
Qed.

Lemma sorted_by_NoDup l : NoDup l -> NoDup (sorted_by key l).
Proof. intros H. by rewrite sorted_by_perm. Qed.

End sorted_by_facts.

Lemma sorted_set_elem_of s d : d ∈ sorted_set s <-> d ∈ s.
Proof. unfold sorted_set. by rewrite sorted_by_elem_of, elem_of_elements. Qed.

Lemma sorted_set_NoDup s : NoDup (sorted_set s).
Proof. apply sorted_by_NoDup, NoDup_elements. Qed.

Lemma sorted_set_length s : length (sorted_set s) = size s.
Proof. unfold sorted_set. by rewrite sorted_by_perm. Qed.

Lemma sorted_set_sorted s : StronglySorted String.le (sorted_set s).
Proof. apply (sorted_by_sorted id). Qed.

(** ** The date-to-value dictionary *)

Lemma obs_dict_snoc l o :
  obs_dict (l ++ [o]) = <[o_date o := o_value o]> (obs_dict l).
Proof. unfold obs_dict. by rewrite fold_left_app. Qed.

Lemma last_filter_snoc {A} (p : A -> bool) l x :
  last (List.filter p (l ++ [x])) =
  if p x then Some x else last (List.filter p l).
Proof.
  rewrite List.filter_app. cbn. destruct (p x).
  - by rewrite last_snoc.
  - by rewrite app_nil_r.
Qed.

(** [obs_map[d]] is the value of the last observation dated [d]. *)
Lemma obs_dict_lookup l d :
  obs_dict l !! d = o_value <$> last (with_key o_date d l).
Proof.
  unfold with_key. induction l as [|o l IH] using rev_ind; [done|].
  rewrite obs_dict_snoc, last_filter_snoc. case_bool_decide as Hd.
  - subst d. by rewrite lookup_insert_eq.
  - by rewrite lookup_insert_ne.
Qed.

Lemma obs_dict_sorted l : obs_dict (sorted_by o_date l) = obs_dict l.
Proof.
  apply map_eq. intros d. by rewrite !obs_dict_lookup, sorted_by_with_key.
Qed.

Lemma obs_dict_is_Some l d : is_Some (obs_dict l !! d) <-> d ∈ map o_date l.
Proof.
  induction l as [|o l IH] using rev_ind.
  - cbn. rewrite lookup_empty. split; [by intros [? ?] | by intros ?%elem_of_nil].
  - rewrite obs_dict_snoc, map_app, elem_of_app. cbn.
    rewrite list_elem_of_singleton, <- IH.
    destruct (decide (o_date o = d)) as [->|Hne].
    + rewrite lookup_insert_eq. naive_solver.
    + rewrite lookup_insert_ne by done. naive_solver.
Qed.

Lemma obs_dict_None l d : obs_dict l !! d = None <-> d ∉ map o_date l.
Proof. rewrite <- obs_dict_is_Some, eq_None_not_Some. done. Qed.

Lemma obs_dict_app l1 l2 d :
  obs_dict (l1 ++ l2) !! d =
  match obs_dict l2 !! d with
  | Some v => Some v
  | None => obs_dict l1 !! d
  end.
Proof.
  induction l2 as [|o l2 IH] using rev_ind.
  - by rewrite app_nil_r.
  - rewrite app_assoc, !obs_dict_snoc.
    destruct (decide (o_date o = d)) as [->|Hne].
    + by rewrite !lookup_insert_eq.
    + by rewrite !lookup_insert_ne.
Qed.

Lemma obs_dict_NoDup l o :
  NoDup (map o_date l) -> o ∈ l -> obs_dict l !! o_date o = Some (o_value o).
Proof.
  induction l as [|x l IH] using rev_ind; [by intros _ ?%elem_of_nil|].
  rewrite map_app, obs_dict_snoc. cbn. intros Hnd Ho.
  apply NoDup_app in Hnd as (Hnd & Hx & _).
  apply elem_of_app in Ho as [Ho | ->%list_elem_of_singleton].
  - rewrite lookup_insert_ne; [by apply IH|].
    intros Heq. apply (Hx (o_date o)).
    + apply list_elem_of_fmap. by exists o.
    + rewrite Heq. apply list_elem_of_here.
  - by rewrite lookup_insert_eq.
Qed.

(** ** Forward fill *)

Lemma on_or_before_elem_of d l o :
  o ∈ on_or_before d l <-> o ∈ l /\ String.le (o_date o) d.
Proof.
  unfold on_or_before. rewrite !list_elem_of_In, filter_In, bool_decide_eq_true.
  done.
Qed.

Lemma filter_none {A} (p : A -> bool) l :
  (forall x, x ∈ l -> p x = false) -> List.filter p l = [].
Proof.
  induction l as [|x l IH]; intros H; cbn; [done|].
  rewrite (H x) by apply list_elem_of_here.
  apply IH. intros y Hy. apply H. by apply list_elem_of_further.
Qed.

(** On a list sorted by date the scan stops at the last observation dated on
    or before [d]. *)
Lemma prior_scan_sorted acc l d :
  StronglySorted (key_le o_date) l ->
  prior_scan acc l d =
  match last (on_or_before d l) with
  | Some o => Some (o_value o)
  | None => acc
  end.
Proof.
  intros Hs. revert acc. induction Hs as [|o l Hs IH Ho]; intros acc; [done|].
  unfold on_or_before in *. cbn [prior_scan List.filter].
  destruct (decide (String.le (o_date o) d)) as [Hle|Hgt].
  - rewrite (bool_decide_eq_true_2 _ Hle), IH.
    destruct (List.filter _ l) as [|o' l'] eqn:E; [done|].
    rewrite (last_cons_cons o o' l').
    destruct (last (o' :: l')) eqn:El; [done|]. by apply last_None in El.
  - rewrite (bool_decide_eq_false_2 _ Hgt).
    assert (List.filter (fun o0 => bool_decide (String.le (o_date o0) d)) l = [])
      as ->; [|done].
    apply filter_none. intros o' Ho'. apply bool_decide_eq_false. intros Hle.
    apply Hgt. rewrite Forall_forall in Ho.
    specialize (Ho _ Ho'). unfold key_le in Ho. by etrans.
Qed.

Lemma last_elem_of {A} (l : list A) x : last l = Some x -> x ∈ l.
Proof.
  induction l as [|y l IH] using rev_ind; [done|].
  rewrite last_snoc. intros [= ->]. apply elem_of_app. right. apply list_elem_of_here.
Qed.

Lemma last_filter_keep {A} (p : A -> bool) l x :
  last l = Some x -> p x = true -> last (List.filter p l) = Some x.
Proof.
  destruct l as [|y l] using rev_ind; [done|].
  rewrite last_snoc. intros [= ->] Hp. by rewrite last_filter_snoc, Hp.
Qed.

Lemma sorted_last_max {A} (R : relation A) `{!Reflexive R} l x y :
  StronglySorted R l -> last l = Some x -> y ∈ l -> R y x.
Proof.
  intros Hs. revert x y. induction Hs as [|a l Hs IH Ha]; intros x y; [done|].
  destruct l as [|b l].
  - cbn. intros [= ->] ->%list_elem_of_singleton. done.
  - rewrite (last_cons_cons a b l). intros Hl Hy.
    apply elem_of_cons in Hy as [->|Hy]; [|by apply IH].
    rewrite Forall_forall in Ha. apply Ha. by apply last_elem_of.
Qed.

Lemma filter_sorted {A} (R : relation A) (p : A -> bool) l :
  StronglySorted R l -> StronglySorted R (List.filter p l).
Proof.
  induction 1 as [|a l Hs IH Ha]; cbn; [constructor|].
  destruct (p a); [|done]. constructor; [done|].
  rewrite Forall_forall in *. intros x Hx. apply Ha.
  apply list_elem_of_In, filter_In in Hx as [Hx _]. by apply list_elem_of_In.
Qed.

Lemma with_key_on_or_before d k l :
  String.le k d ->
  with_key o_date k (on_or_before d l) = with_key o_date k l.
Proof.
  intros Hk. unfold with_key, on_or_before.
  induction l as [|x l IH]; [done|]. cbn [List.filter].
  destruct (decide (String.le (o_date x) d)) as [Hx|Hx].
  - rewrite (bool_decide_eq_true_2 _ Hx). cbn [List.filter]. by rewrite IH.
  - rewrite (bool_decide_eq_false_2 _ Hx), IH.
    rewrite (bool_decide_eq_false_2 (o_date x = k)); [done|].
    intros Heq. apply Hx. by rewrite Heq.
Qed.

(** What the scan of [forward_fill] finds: the value the candidate has on
    its most recent date on or before [d]. *)
Lemma prior_scan_Some obs d v :
  prior_scan None (sorted_by o_date obs) d = Some v ->
  exists d0, most_recent_date obs d d0 /\ obs_dict obs !! d0 = Some v.
Proof.
  pose proof (sorted_by_sorted o_date obs) as Hs.
  rewrite (prior_scan_sorted _ _ _ Hs).
  destruct (last (on_or_before d (sorted_by o_date obs))) as [o|] eqn:El; [|done].
  intros [= <-]. exists (o_date o).
  pose proof (last_elem_of _ _ El) as Ho.
  apply on_or_before_elem_of in Ho as [Ho Hle].
  split; [split; [|split]|].
  - apply list_elem_of_fmap. exists o. split; [done|]. by apply sorted_by_elem_of in Ho.
  - exact Hle.
  - intros d' Hd' Hle'. apply list_elem_of_fmap in Hd' as [o' [-> Ho']].
    apply (sorted_last_max (key_le o_date) (on_or_before d (sorted_by o_date obs)) o o').
    + by apply filter_sorted.
    + exact El.
    + apply on_or_before_elem_of. split; [|done]. by apply sorted_by_elem_of.
  - rewrite <- obs_dict_sorted, obs_dict_lookup.
    rewrite <- (with_key_on_or_before d) by done.
    unfold with_key. rewrite (last_filter_keep _ _ o El); [done|].
    by apply bool_decide_eq_true.
Qed.

Lemma prior_scan_None obs d :
  prior_scan None (sorted_by o_date obs) d = None <->
  forall o, o ∈ obs -> ~ String.le (o_date o) d.
Proof.
  pose proof (sorted_by_sorted o_date obs) as Hs.
  rewrite (prior_scan_sorted _ _ _ Hs). split.
  - destruct (last _) as [o|] eqn:El; [done|]. intros _ o Ho Hle.
    apply last_None in El.
    assert (o ∈ on_or_before d (sorted_by o_date obs)) as Hin.
    { apply on_or_before_elem_of. split; [|done]. by apply sorted_by_elem_of. }
    rewrite El in Hin. by apply elem_of_nil in Hin.
  - intros Hall. destruct (last _) as [o|] eqn:El; [|done].
    apply last_elem_of, on_or_before_elem_of in El as [Ho Hle].
    apply sorted_by_elem_of in Ho. by destruct (Hall o Ho).
Qed.

Lemma fill_loop_Some obs_sorted ds m extra extra' :
  NoDup ds ->
  fill_loop obs_sorted ds m extra = Some extra' ->
  exists new,
    extra' = extra ++ new /\
    map o_date new = List.filter (fun d => bool_decide (m !! d = None)) ds /\
    forall o, o ∈ new -> prior_scan None obs_sorted (o_date o) = Some (o_value o).
Proof.
  intros Hnd. revert m extra.
  induction Hnd as [|d ds Hd Hnd IH]; intros m extra; cbn [fill_loop List.filter].
  - intros [= <-]. exists []. rewrite app_nil_r. split; [done|]. split; [done|].
    by intros o ?%elem_of_nil.
  - destruct (decide (is_Some (m !! d))) as [Hs|Hn].
    + intros H. destruct (IH _ _ H) as (new & -> & Hdates & Hval).
      exists new. split; [done|]. split; [|done].
      rewrite bool_decide_eq_false_2; [done|].
      destruct Hs as [v Hv]. by rewrite Hv.
    + apply eq_None_not_Some in Hn.
      destruct (prior_scan None obs_sorted d) as [v|] eqn:Ep; [|done].
      intros H. destruct (IH _ _ H) as (new & -> & Hdates & Hval).
      exists (mkObs d v :: new). split; [by rewrite <- app_assoc|]. split.
      * rewrite (bool_decide_eq_true_2 _ Hn). cbn [map o_date]. f_equal.
        rewrite Hdates. apply filter_ext_in. intros d' Hd'.
        rewrite lookup_insert_ne; [done|]. intros ->.
        by apply Hd, list_elem_of_In.
      * intros o [->|Ho]%elem_of_cons; [done | by apply Hval].
Qed.

Lemma fill_loop_None obs_sorted ds m extra :
  NoDup ds ->
  fill_loop obs_sorted ds m extra = None <->
  exists d, d ∈ ds /\ m !! d = None /\ prior_scan None obs_sorted d = None.
Proof.
  intros Hnd. revert m extra.
  induction Hnd as [|d ds Hd Hnd IH]; intros m extra; cbn [fill_loop].
  - split; [done|]. by intros (d & ?%elem_of_nil & _).
  - destruct (decide (is_Some (m !! d))) as [Hs|Hn].
    + rewrite IH. split.
      * intros (d' & Hd' & ? & ?). exists d'. by rewrite elem_of_cons; auto.
      * intros (d' & [->|Hd']%elem_of_cons & Hm & Hp); [|by exists d'].
        destruct Hs as [v Hv]. congruence.
    + apply eq_None_not_Some in Hn.
      destruct (prior_scan None obs_sorted d) as [v|] eqn:Ep.
      * rewrite IH. split.
        -- intros (d' & Hd' & Hm & Hp). exists d'. split; [by apply elem_of_cons; auto|].
           split; [|done]. rewrite lookup_insert_ne in Hm; [done|].
           by intros ->.
        -- intros (d' & [->|Hd']%elem_of_cons & Hm & Hp); [congruence|].
           exists d'. split; [done|]. split; [|done].
           rewrite lookup_insert_ne; [done|]. by intros ->.
      * split; [|done]. intros _. exists d. by rewrite elem_of_cons; auto.
Qed.

Lemma forward_fill_Some obs target_dates obs' :
  forward_fill obs target_dates = Some obs' ->
  exists new,
    obs' = sorted_by o_date obs ++ new /\
    map o_date new = absent_dates obs target_dates /\
    forall o, o ∈ new ->
      prior_scan None (sorted_by o_date obs) (o_date o) = Some (o_value o).
Proof.
  unfold forward_fill.
  destruct (fill_loop _ _ _ _) as [extra|] eqn:E; [|done]. intros [= <-].
  apply fill_loop_Some in E as (new & -> & Hdates & Hval);
    [|apply sorted_set_NoDup].
  rewrite app_nil_l in *. exists new. split; [|split; [|done]].
  - destruct new; [by rewrite app_nil_r | done].
  - rewrite Hdates. unfold absent_dates. apply filter_ext. intros d.
    apply bool_decide_ext. rewrite obs_dict_None.
    unfold not. by rewrite list_elem_of_fmap, (list_elem_of_fmap o_date obs);
      setoid_rewrite sorted_by_elem_of.
Qed.

Lemma forward_fill_None obs target_dates :
  forward_fill obs target_dates = None <->
  exists d, d ∈ target_dates /\ forall o, o ∈ obs -> ~ String.le (o_date o) d.
Proof.
  unfold forward_fill.
  destruct (fill_loop _ _ _ _) as [extra|] eqn:E.
  - split; [done|]. intros (d & Hd & Hall).
    assert (fill_loop (sorted_by o_date obs) (sorted_set target_dates)
              (obs_dict (sorted_by o_date obs)) [] = None) as Hn; [|congruence].
    apply fill_loop_None; [apply sorted_set_NoDup|]. exists d.
    split; [by apply sorted_set_elem_of|]. split; [|by apply prior_scan_None].
    rewrite obs_dict_sorted. apply obs_dict_None.
    intros (o & -> & Ho)%list_elem_of_fmap. by apply (Hall o Ho).
  - split; [|done]. intros _.
    apply fill_loop_None in E as (d & Hd & _ & Hp); [|apply sorted_set_NoDup].
    exists d. split; [by apply sorted_set_elem_of | by apply prior_scan_None].
Qed.

Lemma absent_dates_elem_of obs target_dates d :
  d ∈ absent_dates obs target_dates <-> d ∈ target_dates /\ d ∉ map o_date obs.
Proof.
  unfold absent_dates.
  rewrite list_elem_of_In, filter_In, <- list_elem_of_In, sorted_set_elem_of.
  by rewrite bool_decide_eq_true.
Qed.

Lemma absent_dates_NoDup obs target_dates : NoDup (absent_dates obs target_dates).
Proof.
  unfold absent_dates. apply NoDup_ListNoDup, List.NoDup_filter, NoDup_ListNoDup.
  apply sorted_set_NoDup.
Qed.

(** The dictionary built from the output of [forward_fill]: real dates keep
    their value, absent target dates get the scanned value, nothing else is
    added. *)
Lemma forward_fill_lookup obs target_dates obs' d :
  forward_fill obs target_dates = Some obs' ->
  (d ∈ map o_date obs -> obs_dict obs' !! d = obs_dict obs !! d) /\
  (d ∈ target_dates -> d ∉ map o_date obs ->
   exists v, obs_dict obs' !! d = Some v /\
             prior_scan None (sorted_by o_date obs) d = Some v) /\
  (d ∉ target_dates -> d ∉ map o_date obs -> obs_dict obs' !! d = None).
Proof.
  intros (new & -> & Hdates & Hval)%forward_fill_Some.
  rewrite obs_dict_app, obs_dict_sorted.
  assert (Hnd : NoDup (map o_date new)).
  { rewrite Hdates. apply absent_dates_NoDup. }
  split; [|split].
  - intros Hd. assert (obs_dict new !! d = None) as ->; [|done].
    apply obs_dict_None. rewrite Hdates, absent_dates_elem_of. by intros [_ ?].
  - intros Hd Hn. assert (d ∈ map o_date new) as Hin.
    { rewrite Hdates. by apply absent_dates_elem_of. }
    apply list_elem_of_fmap in Hin as (o & -> & Ho).
    exists (o_value o). rewrite (obs_dict_NoDup new o Hnd Ho).
    split; [done | by apply Hval].
  - intros Hd Hn. assert (obs_dict new !! d = None) as ->.
    { apply obs_dict_None. rewrite Hdates, absent_dates_elem_of. by intros [? _]. }
    by apply obs_dict_None.
Qed.

(** ** The alignment step *)

Lemma elem_of_dates_of obs d : d ∈ dates_of obs <-> d ∈ map o_date obs.
Proof. unfold dates_of. apply elem_of_list_to_set. Qed.

Lemma missing_dates_elem_of sp500_dates obs d :
  d ∈ missing_dates sp500_dates obs <-> d ∈ sp500_dates /\ d ∉ map o_date obs.
Proof. unfold missing_dates. by rewrite elem_of_difference, elem_of_dates_of. Qed.

Lemma filled_dates_elem_of sp500_dates obs d :
  d ∈ filled_dates sp500_dates obs <-> d ∈ sp500_dates /\ d ∉ map o_date obs.
Proof. unfold filled_dates. by rewrite sorted_set_elem_of, missing_dates_elem_of. Qed.

Lemma filled_dates_length sp500_dates obs :
  length (filled_dates sp500_dates obs) = size (missing_dates sp500_dates obs).
Proof. apply sorted_set_length. Qed.

Lemma align_with_aligned fill m sp500_dates obs obs' :
  align_with fill m sp500_dates obs = aligned obs' ->
  (Z.of_nat (size (missing_dates sp500_dates obs)) <= m)%Z /\
  ((missing_dates sp500_dates obs = ∅ /\ obs' = obs) \/
   (missing_dates sp500_dates obs <> ∅ /\
    fill obs (missing_dates sp500_dates obs) = Some obs')).
Proof.
  unfold align_with.
  destruct (Z.ltb_spec m (Z.of_nat (size (missing_dates sp500_dates obs))));
    [done|].
  intros H'. split; [done|].
  destruct (decide (missing_dates sp500_dates obs = ∅)) as [He|Hne].
  - left. by injection H' as <-.
  - right. split; [done|]. destruct (fill _ _); [|done]. by injection H' as <-.
Qed.

Lemma align_with_over fill m sp500_dates obs :
  (m < Z.of_nat (size (missing_dates sp500_dates obs)))%Z ->
  align_with fill m sp500_dates obs = insufficient_overlap.
Proof.
  intros H. unfold align_with.
  by destruct (Z.ltb_spec m (Z.of_nat (size (missing_dates sp500_dates obs))));
    [|lia].
Qed.

(** The values of an aligned candidate, date by date. *)
Lemma align_lookup m sp500_dates obs obs' d :
  align m sp500_dates obs = aligned obs' ->
  (d ∈ map o_date obs -> aligned_value obs' d = obs_dict obs !! d) /\
  (d ∈ sp500_dates -> d ∉ map o_date obs ->
   exists v, aligned_value obs' d = Some v /\
             prior_scan None (sorted_by o_date obs) d = Some v).
Proof.
  intros H. apply align_with_aligned in H as [_ [[He ->] | [Hne Hf]]].
  - split; [done|]. intros Hd Hn.
    assert (d ∈ missing_dates sp500_dates obs) as Hin
      by by apply missing_dates_elem_of.
    rewrite He in Hin. by apply not_elem_of_empty in Hin.
  - destruct (forward_fill_lookup _ _ _ d Hf) as (H1 & H2 & _).
    split; [done|]. intros Hd Hn. apply H2; [|done].
    by apply missing_dates_elem_of.
Qed.

Lemma obs_dict_Some_elem l d v : obs_dict l !! d = Some v -> mkObs d v ∈ l.
Proof.
  rewrite obs_dict_lookup. destruct (last _) as [o|] eqn:El; [|done].
  intros [= <-]. apply last_elem_of in El. unfold with_key in El.
  apply list_elem_of_In, filter_In in El as [Ho Hd].
  apply bool_decide_eq_true in Hd. subst d. apply list_elem_of_In in Ho.
  by destruct o.
Qed.

Lemma obs_dict_unique l o :
  o ∈ l ->
  (forall o', o' ∈ l -> o_date o' = o_date o -> o' = o) ->
  obs_dict l !! o_date o = Some (o_value o).
Proof.
  intros Ho Huniq. rewrite obs_dict_lookup.
  destruct (last (with_key o_date (o_date o) l)) as [o'|] eqn:El.
  - apply last_elem_of in El. unfold with_key in El.
    apply list_elem_of_In, filter_In in El as [Ho' Hd].
    apply bool_decide_eq_true in Hd. apply list_elem_of_In in Ho'.
    by rewrite (Huniq o' Ho' Hd).
  - apply last_None in El. exfalso.
    assert (o ∈ with_key o_date (o_date o) l) as Hin.
    { unfold with_key. apply list_elem_of_In, filter_In.
      split; [by apply list_elem_of_In | by apply bool_decide_eq_true]. }
    rewrite El in Hin. by apply elem_of_nil in Hin.
Qed.

(** [max_missing] is [floor(n / 20)] on every window the scripts can meet
    (checked here up to 2000 dates; [WINDOW_DAYS] allows 61). *)
Lemma max_missing_floor n : n <= 2000 -> max_missing n = Some (Z.of_nat n / 20)%Z.
Proof.
  intros Hn.
  assert (forallb (fun k => bool_decide (max_missing k = Some (Z.of_nat k / 20)%Z))
            (seq 0 2001) = true) as Hall by (vm_compute; reflexivity).
  rewrite forallb_forall in Hall.
  apply (bool_decide_eq_true_1 (max_missing n = Some (Z.of_nat n / 20)%Z)).
  apply Hall, in_seq. lia.
Qed.

(** ** The body of the main loop *)

Section ScoringFacts.
Variable np_std : list float -> float.
Variable np_corrcoef_01 : list float -> list float -> float.
Variable round6 : float -> float.

Lemma pearson_r_short xs ys :
  length xs < 10 -> pearson_r np_std np_corrcoef_01 xs ys = nan.
Proof.
  intros H. unfold pearson_r.
  destruct (Nat.ltb_spec (length xs) 10); [done | lia].
Qed.

Lemma pearson_r_zero_std xs ys :
  PrimFloat.eqb (np_std xs) 0 = true \/ PrimFloat.eqb (np_std ys) 0 = true ->
  pearson_r np_std np_corrcoef_01 xs ys = nan.
Proof.
  intros H. unfold pearson_r. destruct (length xs <? 10); [done|].
  destruct H as [-> | ->]; [done|]. by rewrite orb_true_r.
Qed.

Lemma pearson_r_else xs ys :
  10 <= length xs ->
  PrimFloat.eqb (np_std xs) 0 = false -> PrimFloat.eqb (np_std ys) 0 = false ->
  pearson_r np_std np_corrcoef_01 xs ys = np_corrcoef_01 xs ys.
Proof.
  intros H Hx Hy. unfold pearson_r. rewrite Hx, Hy.
  destruct (Nat.ltb_spec (length xs) 10); [lia | done].
Qed.

Lemma process_over m sp500 series obs :
  (m < Z.of_nat (size (missing_dates (dates_of sp500) obs)))%Z ->
  process_series np_std np_corrcoef_01 round6 m sp500 series obs = partial_overlap.
Proof.
  intros H. unfold process_series, align. by rewrite align_with_over.
Qed.

Lemma process_rejected m sp500 series obs :
  align m (dates_of sp500) obs = insufficient_overlap ->
  process_series np_std np_corrcoef_01 round6 m sp500 series obs = partial_overlap.
Proof. intros H. unfold process_series. by rewrite H. Qed.

Lemma process_accepted m sp500 series obs row :
  process_series np_std np_corrcoef_01 round6 m sp500 series obs = accepted row ->
  exists obs',
    align m (dates_of sp500) obs = aligned obs' /\
    row_filled_dates row = filled_dates (dates_of sp500) obs /\
    row_n_dates row = Some (Z.of_nat (size (dates_of sp500))).
Proof.
  unfold process_series.
  destruct (align m (dates_of sp500) obs) as [|obs'] eqn:Ea; [done|].
  destruct (mapM _ _) as [sp_vals|]; [|done].
  destruct (mapM _ _) as [other_vals|]; [|done].
  destruct (negb _); [|done]. intros [= <-]. exists obs'.
  cbn [row_filled_dates row_n_dates]. by rewrite sorted_set_length.
Qed.

(** Both lookups of the alignment loop succeed: the model's [key_error]
    is never the outcome. *)
Lemma process_no_key_error m sp500 series obs :
  process_series np_std np_corrcoef_01 round6 m sp500 series obs <> key_error.
Proof.
  unfold process_series.
  destruct (align m (dates_of sp500) obs) as [|obs'] eqn:Ea; [done|].
  assert (is_Some (mapM (fun d => obs_dict sp500 !! d) (sorted_set (dates_of sp500))))
    as [sp_vals ->].
  { apply mapM_is_Some, Forall_forall. intros d Hd.
    apply sorted_set_elem_of, elem_of_dates_of in Hd. by apply obs_dict_is_Some. }
  assert (is_Some (mapM (fun d => obs_dict obs' !! d) (sorted_set (dates_of sp500))))
    as [other_vals ->].
  { apply mapM_is_Some, Forall_forall. intros d Hd.
    apply sorted_set_elem_of in Hd.
    destruct (align_lookup _ _ _ _ d Ea) as [H1 H2]. unfold aligned_value in *.
    cbn. destruct (decide (d ∈ map o_date obs)) as [Hin|Hn].
    - rewrite (H1 Hin). by apply obs_dict_is_Some.
    - destruct (H2 Hd Hn) as (v & -> & _). done. }
  by destruct (negb _).
Qed.

(** C1. Let [m] be [int((1.0 - MIN_OVERLAP_RATIO) * len(sp500_dates))], which
    is [floor(len(sp500_dates) / 20)] on every window up to 2000 dates.  When
    more than [m] benchmark dates are missing the candidate is rejected as
    a partial overlap whatever the fill procedure would do (it is not
    called); so every accepted row has at most [m] filled dates, all of
    them benchmark dates. *)
Theorem overlap_threshold sp500 series obs m :
  max_missing (size (dates_of sp500)) = Some m ->
  (size (dates_of sp500) <= 2000 ->
   m = (Z.of_nat (size (dates_of sp500)) / 20)%Z) /\
  ((m < Z.of_nat (size (missing_dates (dates_of sp500) obs)))%Z ->
   (forall fill, align_with fill m (dates_of sp500) obs = insufficient_overlap) /\
   process_series np_std np_corrcoef_01 round6 m sp500 series obs = partial_overlap) /\
  (forall row,
     process_series np_std np_corrcoef_01 round6 m sp500 series obs = accepted row ->
     (Z.of_nat (length (row_filled_dates row)) <= m)%Z /\
     (forall d, d ∈ row_filled_dates row -> d ∈ dates_of sp500)).
Proof.
  intros Hm. split; [|split].
  - intros Hn. apply max_missing_floor in Hn. congruence.
  - intros Hover. split; [|by apply process_over].
    intros fill. by apply align_with_over.
  - intros row (obs' & Ha & -> & _)%process_accepted.
    apply align_with_aligned in Ha as [Hle _]. split.
    + by rewrite filled_dates_length.
    + intros d Hd. by apply filled_dates_elem_of in Hd as [? _].
Qed.

(** C2. With the missing dates within the threshold, a missing benchmark
    date that no observation of the candidate is dated on or before makes
    the alignment reject the candidate; so whenever the candidate is
    aligned, every filled date has an observation dated before it. *)
Theorem no_fill_before_history sp500 series obs m :
  max_missing (size (dates_of sp500)) = Some m ->
  (Z.of_nat (size (missing_dates (dates_of sp500) obs)) <= m)%Z ->
  ((exists d, d ∈ missing_dates (dates_of sp500) obs /\
              forall o, o ∈ obs -> ~ String.le (o_date o) d) ->
   align m (dates_of sp500) obs = insufficient_overlap /\
   process_series np_std np_corrcoef_01 round6 m sp500 series obs = partial_overlap) /\
  (forall obs',
     align m (dates_of sp500) obs = aligned obs' ->
     forall d, d ∈ filled_dates (dates_of sp500) obs ->
     exists o, o ∈ obs /\ String.le (o_date o) d /\ o_date o <> d).
Proof.
  intros _ Hle. split.
  - intros (d & Hd & Hall).
    assert (align m (dates_of sp500) obs = insufficient_overlap) as Ha.
    { unfold align, align_with.
      destruct (Z.ltb_spec m (Z.of_nat (size (missing_dates (dates_of sp500) obs))));
        [done|].
      rewrite decide_False by (intros He; rewrite He in Hd; by apply not_elem_of_empty in Hd).
      assert (forward_fill obs (missing_dates (dates_of sp500) obs) = None) as ->;
        [|done].
      apply forward_fill_None. by exists d. }
    split; [done | by apply process_rejected].
  - intros obs' Ha d Hd. apply filled_dates_elem_of in Hd as [Hd Hn].
    destruct (align_lookup _ _ _ _ d Ha) as [_ H2].
    destruct (H2 Hd Hn) as (v & _ & Hp).
    apply prior_scan_Some in Hp as (d0 & (Hd0 & Hle0 & _) & _).
    apply list_elem_of_fmap in Hd0 as (o & -> & Ho).
    exists o. split; [done|]. split; [done|]. intros Heq. apply Hn.
    rewrite <- Heq. apply list_elem_of_fmap. by exists o.
Qed.

End ScoringFacts.

(** C3. A filled date of an aligned candidate gets the value the candidate
    has on its most recent observed date before it; no observation dated
    after the filled date is used. *)
Theorem fill_is_locf m sp500_dates obs obs' d :
  align m sp500_dates obs = aligned obs' ->
  d ∈ filled_dates sp500_dates obs ->
  exists d0 v,
    most_recent_date obs d d0 /\ d0 <> d /\
    mkObs d0 v ∈ obs /\ obs_dict obs !! d0 = Some v /\
    aligned_value obs' d = Some v.
Proof.
  intros Ha Hd. apply filled_dates_elem_of in Hd as [Hd Hn].
  destruct (align_lookup _ _ _ _ d Ha) as [_ H2].
  destruct (H2 Hd Hn) as (v & Hv & Hp).
  apply prior_scan_Some in Hp as (d0 & Hrec & Hd0).
  exists d0, v. split; [done|]. split.
  - intros ->. by destruct Hrec as [? _].
  - split; [by apply obs_dict_Some_elem|]. done.
Qed.

(** C10. Alignment keeps every real observation: on a date the candidate
    has, the aligned value is the one of the candidate's own dictionary,
    which is the observation's value when the date occurs once; the filled
    dates are exactly the benchmark dates the candidate lacks, and with no
    date missing nothing is filled and the observations are untouched. *)
Theorem real_observations_kept m sp500_dates obs obs' :
  align m sp500_dates obs = aligned obs' ->
  (forall d, d ∈ map o_date obs -> aligned_value obs' d = obs_dict obs !! d) /\
  (forall o, o ∈ obs ->
     (forall o', o' ∈ obs -> o_date o' = o_date o -> o' = o) ->
     aligned_value obs' (o_date o) = Some (o_value o)) /\
  (forall d, d ∈ filled_dates sp500_dates obs <->
             d ∈ sp500_dates /\ d ∉ map o_date obs) /\
  (missing_dates sp500_dates obs = ∅ ->
   filled_dates sp500_dates obs = [] /\ obs' = obs).
Proof.
  intros Ha. split; [|split; [|split]].
  - intros d Hd. by apply (align_lookup _ _ _ _ d Ha).
  - intros o Ho Huniq.
    destruct (align_lookup _ _ _ _ (o_date o) Ha) as [H1 _].
    rewrite H1 by (apply list_elem_of_fmap; by exists o).
    by apply obs_dict_unique.
  - intros d. apply filled_dates_elem_of.
  - intros He. split.
    + unfold filled_dates, sorted_set. rewrite He, elements_empty. done.
    + apply align_with_aligned in Ha as [_ [[_ ->] | [Hne _]]]; done.
Qed.

(** ** Worked examples *)

Example ex_max_missing : max_missing (size (dates_of ex_sp500)) = Some 1%Z.
Proof. vm_compute. reflexivity. Qed.

Example ex_window_max_missing : max_missing 60 = Some 3%Z.
Proof. vm_compute. reflexivity. Qed.

Example ex_align_gap : align 1 (dates_of ex_sp500) ex_gap = aligned ex_gap_aligned.
Proof. vm_compute. reflexivity. Qed.

Example ex_align_full : align 1 (dates_of ex_sp500) ex_full = aligned ex_full.
Proof. vm_compute. reflexivity. Qed.

Example ex_align_late : align 1 (dates_of ex_sp500) ex_late = insufficient_overlap.
Proof. vm_compute. reflexivity. Qed.

Example ex_align_two : align 1 (dates_of ex_sp500) ex_two = insufficient_overlap.
Proof. vm_compute. reflexivity. Qed.

Example ex_fill_unsorted :
  forward_fill (rev ex_gap) {[ "2024-03-08" ]} = Some ex_gap_aligned.
Proof. vm_compute. reflexivity. Qed.

Lemma overlap_threshold_witness :
  max_missing (size (dates_of ex_sp500)) = Some 1%Z /\
  (forall fill, align_with fill 1 (dates_of ex_sp500) ex_two = insufficient_overlap) /\
  process_series (fun _ => 1%float) (fun _ _ => 0.5%float) (fun x => x)
    1 ex_sp500 ex_candidate ex_two = partial_overlap.
Proof.
  assert (H : max_missing (size (dates_of ex_sp500)) = Some 1%Z)
    by (vm_compute; reflexivity).
  split; [exact H|].
  apply (overlap_threshold (fun _ => 1%float) (fun _ _ => 0.5%float) (fun x => x)
           ex_sp500 ex_candidate ex_two 1 H).
  vm_compute. reflexivity.
Defined.

Lemma no_fill_before_history_witness :
  max_missing (size (dates_of ex_sp500)) = Some 1%Z /\
  (Z.of_nat (size (missing_dates (dates_of ex_sp500) ex_late)) <= 1)%Z /\
  align 1 (dates_of ex_sp500) ex_late = insufficient_overlap.
Proof.
  assert (H : max_missing (size (dates_of ex_sp500)) = Some 1%Z)
    by (vm_compute; reflexivity).
  assert (Hle : (Z.of_nat (size (missing_dates (dates_of ex_sp500) ex_late)) <= 1)%Z)
    by (vm_compute; discriminate).
  split; [exact H|]. split; [exact Hle|].
  apply (no_fill_before_history (fun _ => 1%float) (fun _ _ => 0.5%float)
           (fun x => x) ex_sp500 ex_candidate ex_late 1 H Hle).
  exists "2024-03-01". split.
  - apply missing_dates_elem_of. split.
    + apply elem_of_dates_of. vm_compute. apply list_elem_of_here.
    + apply (bool_decide_eq_true_1 _). vm_compute. reflexivity.
  - intros o Ho. apply (bool_decide_eq_true_1 _).
    revert o Ho. apply Forall_forall, (bool_decide_eq_true_1 _).
    vm_compute. reflexivity.
Defined.

Lemma fill_is_locf_witness :
  align 1 (dates_of ex_sp500) ex_gap = aligned ex_gap_aligned /\
  "2024-03-08" ∈ filled_dates (dates_of ex_sp500) ex_gap /\
  exists d0 v,
    most_recent_date ex_gap "2024-03-08" d0 /\ d0 <> "2024-03-08" /\
    mkObs d0 v ∈ ex_gap /\ obs_dict ex_gap !! d0 = Some v /\
    aligned_value ex_gap_aligned "2024-03-08" = Some v.
Proof.
  assert (Ha : align 1 (dates_of ex_sp500) ex_gap = aligned ex_gap_aligned)
    by (vm_compute; reflexivity).
  assert (Hd : "2024-03-08" ∈ filled_dates (dates_of ex_sp500) ex_gap)
    by (vm_compute; apply list_elem_of_here).
  split; [exact Ha|]. split; [exact Hd|].
  exact (fill_is_locf 1 (dates_of ex_sp500) ex_gap ex_gap_aligned "2024-03-08" Ha Hd).
Defined.

Lemma real_observations_kept_witness :
  align 1 (dates_of ex_sp500) ex_gap = aligned ex_gap_aligned /\
  (forall d, d ∈ map o_date ex_gap ->
     aligned_value ex_gap_aligned d = obs_dict ex_gap !! d) /\
  (forall d, d ∈ filled_dates (dates_of ex_sp500) ex_gap <->
             d ∈ dates_of ex_sp500 /\ d ∉ map o_date ex_gap).
Proof.
  assert (Ha : align 1 (dates_of ex_sp500) ex_gap = aligned ex_gap_aligned)
    by (vm_compute; reflexivity).
  split; [exact Ha|].
  destruct (real_observations_kept 1 (dates_of ex_sp500) ex_gap ex_gap_aligned Ha)
    as (H1 & _ & H3 & _).
  split; [exact H1 | exact H3].
Defined.

(** Seven ICE BofA and four CBOE rows are financial; five and three are
    kept.  The duplicate mortgage row, the short row, the weak row, the
    capped rows and the ICE BofA and CBOE rows of the other list are gone. *)
Example ex_curated :
  map (fun e => (row_id (cur_row e), cur_category e)) (curate ex_rows) =
  [ ("BAMLH0A0HYM2", financial); ("BAMLHE00EHYIOAS", financial);
    ("BAMLH0A1HYBB", financial); ("BAMLH0A2HYB", financial);
    ("BAMLH0A3HYC", financial); ("VIXCLS", financial);
    ("GVZCLS", financial); ("VXGDXCLS", financial);
    ("RRPONTSYD", other); ("IHLIDXUSTPSOFTDEVE", funny);
    ("MORTGAGE30US", financial) ].
Proof. vm_compute. reflexivity. Qed.

Example ex_caps_reached :
  count_if financial_baml (curate ex_rows) = 5 /\
  count_if financial_vix (curate ex_rows) = 3.
Proof. vm_compute. split; reflexivity. Qed.

Example ex_threshold_is_strict :
  classify (ex_row "X" "Mortgage Debt Service Payments" 0.1 41) = None /\
  classify (ex_row "X" "Mortgage Debt Service Payments" 0.100001 41) = Some financial.
Proof. vm_compute. split; reflexivity. Qed.

Lemma classification_first_match_witness :
  ex_indeed ∈ dedup (reliable ex_rows) /\
  (ex_indeed ∈ funny_series (classify_all (dedup (reliable ex_rows))) <->
   funny_rule ex_indeed).
Proof.
  assert (H : ex_indeed ∈ dedup (reliable ex_rows)).
  { apply list_elem_of_In. vm_compute. right. left. reflexivity. }
  split; [exact H|].
  exact (proj1 (classification_first_match ex_rows ex_indeed H)).
Defined.

(** * Part III: further properties of the code *)

(** ** [forward_fill] *)

Global Instance key_le_trans {A} (key : A -> string) : Transitive (key_le key).
Proof. intros x y z. unfold key_le. apply transitivity. Qed.

Lemma StronglySorted_fmap_key {A} (key : A -> string) (l : list A) :
  StronglySorted String.le (map key l) -> StronglySorted (key_le key) l.
Proof.
  induction l as [|x l IH]; cbn; intros H; [constructor|].
  apply StronglySorted_inv in H as [Hs Hx]. constructor; [by apply IH|].
  apply Forall_forall. intros y Hy. rewrite Forall_forall in Hx. apply Hx.
  apply list_elem_of_fmap. by exists y.
Qed.

Lemma absent_dates_sorted obs target_dates :
  StronglySorted String.le (absent_dates obs target_dates).
Proof. unfold absent_dates. apply filter_sorted, sorted_set_sorted. Qed.

(** X1. A successful [forward_fill] returns the observations sorted by date
    followed by one new entry for each target date the candidate lacks, in
    ascending date order: every input observation is kept, and the length
    grows by the number of absent target dates. *)
Theorem forward_fill_shape obs target_dates obs' :
  forward_fill obs target_dates = Some obs' ->
  exists new,
    obs' = sorted_by o_date obs ++ new /\
    map o_date new = absent_dates obs target_dates /\
    StronglySorted String.le (map o_date new) /\
    obs' ≡ₚ obs ++ new /\
    length obs' = length obs + length (absent_dates obs target_dates).
Proof.
  intros (new & -> & Hdates & _)%forward_fill_Some. exists new.
  split; [done|]. split; [done|]. split.
  - rewrite Hdates. apply absent_dates_sorted.
  - split.
    + by rewrite sorted_by_perm.
    + rewrite length_app, sorted_by_perm, <- Hdates. by rewrite length_map.
Qed.

Lemma forward_fill_shape_witness :
  forward_fill ex_gap {[ "2024-03-08" ]} = Some ex_gap_aligned /\
  exists new,
    ex_gap_aligned = sorted_by o_date ex_gap ++ new /\
    map o_date new = absent_dates ex_gap {[ "2024-03-08" ]} /\
    StronglySorted String.le (map o_date new) /\
    ex_gap_aligned ≡ₚ ex_gap ++ new /\
    length ex_gap_aligned
    = length ex_gap + length (absent_dates ex_gap {[ "2024-03-08" ]}).
Proof.
  assert (H : forward_fill ex_gap {[ "2024-03-08" ]} = Some ex_gap_aligned)
    by (vm_compute; reflexivity).
  split; [exact H|].
  exact (forward_fill_shape ex_gap {[ "2024-03-08" ]} ex_gap_aligned H).
Defined.

(** X2. The list [forward_fill] returns is sorted by date exactly when every
    filled date is on or after all of the candidate's observations: the new
    entries go to the end of the list, whatever their dates. *)
Theorem forward_fill_sorted_iff obs target_dates obs' :
  forward_fill obs target_dates = Some obs' ->
  Sorted (key_le o_date) obs' <->
  forall d o, d ∈ target_dates -> d ∉ map o_date obs -> o ∈ obs ->
              String.le (o_date o) d.
Proof.
  intros (new & -> & Hdates & _)%forward_fill_Some. split.
  - intros Hs d o Hd Hn Ho. apply Sorted_StronglySorted in Hs; [|apply _].
    assert (d ∈ map o_date new) as (o' & -> & Ho')%list_elem_of_fmap.
    { rewrite Hdates. by apply absent_dates_elem_of. }
    apply (StronglySorted_app_1_elem_of _ _ _ o o' Hs); [|done].
    by apply sorted_by_elem_of.
  - intros Hall. apply StronglySorted_Sorted, StronglySorted_app_2.
    + intros o o' Ho Ho'. apply sorted_by_elem_of in Ho.
      assert (o_date o' ∈ absent_dates obs target_dates) as Hd.
      { rewrite <- Hdates. apply list_elem_of_fmap. by exists o'. }
      apply absent_dates_elem_of in Hd as [Hd Hn]. by apply Hall.
    + apply sorted_by_sorted.
    + apply StronglySorted_fmap_key. rewrite Hdates. apply absent_dates_sorted.
Qed.

(** The filled 2024-03-08 sits after 2024-03-28: the list is not sorted. *)
Lemma forward_fill_sorted_iff_witness :
  forward_fill ex_gap {[ "2024-03-08" ]} = Some ex_gap_aligned /\
  ~ Sorted (key_le o_date) ex_gap_aligned.
Proof.
  assert (H : forward_fill ex_gap {[ "2024-03-08" ]} = Some ex_gap_aligned)
    by (vm_compute; reflexivity).
  split; [exact H|]. intros Hs.
  pose proof (proj1 (forward_fill_sorted_iff ex_gap {[ "2024-03-08" ]}
                       ex_gap_aligned H) Hs
                "2024-03-08" (mkObs "2024-03-11" (float_of_len 106))) as Hall.
  assert (Hle : String.le "2024-03-11" "2024-03-08").
  { apply Hall.
    - by apply elem_of_singleton.
    - apply (bool_decide_eq_true_1 _). vm_compute. reflexivity.
    - apply (list_elem_of_lookup_2 _ 5). vm_compute. reflexivity. }
  revert Hle. apply (bool_decide_eq_false_1 _). vm_compute. reflexivity.
Defined.

(** X3. Edge cases of [forward_fill]: when the candidate already has every
    target date the result is just the observations sorted by date, and a
    candidate without observations cannot be filled unless no date is
    asked for. *)
Theorem forward_fill_edge_cases :
  (forall obs target_dates,
     (forall d, d ∈ target_dates -> d ∈ map o_date obs) ->
     forward_fill obs target_dates = Some (sorted_by o_date obs)) /\
  (forall target_dates,
     forward_fill [] target_dates = None <-> target_dates <> ∅).
Proof.
  split.
  - intros obs target_dates Hall.
    destruct (forward_fill obs target_dates) as [obs'|] eqn:E.
    + apply forward_fill_Some in E as (new & -> & Hdates & _).
      assert (absent_dates obs target_dates = []) as Hnil.
      { apply elem_of_nil_inv. intros d [Hd Hn]%absent_dates_elem_of.
        by apply Hn, Hall. }
      rewrite Hnil in Hdates. apply fmap_nil_inv in Hdates. subst new.
      by rewrite app_nil_r.
    + apply forward_fill_None in E as (d & Hd & Hno). exfalso.
      apply Hall, list_elem_of_fmap in Hd as (o & -> & Ho). by apply (Hno o Ho).
  - intros target_dates. rewrite forward_fill_None. split.
    + intros (d & Hd & _) ->. by apply not_elem_of_empty in Hd.
    + intros Hne. apply set_choose_L in Hne as [d Hd]. exists d.
      split; [done|]. by intros o ?%elem_of_nil.
Qed.

(** ** The alignment step, continued *)

Lemma sorted_by_unique_keys (obs1 obs2 : list Observation) :
  obs1 ≡ₚ obs2 -> NoDup (map o_date obs1) ->
  sorted_by o_date obs1 = sorted_by o_date obs2.
Proof.
  intros Hp Hnd. apply (StronglySorted_unique_strong (key_le o_date)).
  - intros x1 x2 H1 H2 H12 H21.
    apply sorted_by_elem_of in H1. apply sorted_by_elem_of in H2.
    rewrite <- Hp in H2.
    assert (o_date x1 = o_date x2) as Hd by (by apply (anti_symm String.le)).
    apply list_elem_of_lookup_1 in H1 as [i Hi].
    apply list_elem_of_lookup_1 in H2 as [j Hj].
    assert (i = j) as ->; [|congruence].
    apply (NoDup_lookup (map o_date obs1) i j (o_date x1)); [done|..].
    + by rewrite list_lookup_fmap, Hi.
    + by rewrite list_lookup_fmap, Hj, Hd.
  - apply sorted_by_sorted.
  - apply sorted_by_sorted.
  - by rewrite !sorted_by_perm.
Qed.

Lemma dates_of_perm obs1 obs2 : obs1 ≡ₚ obs2 -> dates_of obs1 = dates_of obs2.
Proof. intros Hp. unfold dates_of. by rewrite Hp. Qed.

Lemma forward_fill_perm obs1 obs2 target_dates :
  obs1 ≡ₚ obs2 -> NoDup (map o_date obs1) ->
  forward_fill obs1 target_dates = forward_fill obs2 target_dates.
Proof.
  intros Hp Hnd. unfold forward_fill.
  by rewrite (sorted_by_unique_keys obs1 obs2 Hp Hnd).
Qed.

Lemma obs_dict_perm obs1 obs2 :
  obs1 ≡ₚ obs2 -> NoDup (map o_date obs1) -> obs_dict obs1 = obs_dict obs2.
Proof.
  intros Hp Hnd.
  by rewrite <- (obs_dict_sorted obs1), <- (obs_dict_sorted obs2),
    (sorted_by_unique_keys obs1 obs2 Hp Hnd).
Qed.

(** X4. The order in which a candidate's observations arrive does not
    matter when its dates are distinct: two arrangements of the same
    observations get the same fill, are rejected together, and when aligned
    have the same value on every date. *)
Theorem align_order_independent m sp500_dates obs1 obs2 :
  obs1 ≡ₚ obs2 -> NoDup (map o_date obs1) ->
  forward_fill obs1 (missing_dates sp500_dates obs1)
  = forward_fill obs2 (missing_dates sp500_dates obs2) /\
  filled_dates sp500_dates obs1 = filled_dates sp500_dates obs2 /\
  (align m sp500_dates obs1 = insufficient_overlap <->
   align m sp500_dates obs2 = insufficient_overlap) /\
  (forall obs1' obs2',
     align m sp500_dates obs1 = aligned obs1' ->
     align m sp500_dates obs2 = aligned obs2' ->
     forall d, aligned_value obs1' d = aligned_value obs2' d).
Proof.
  intros Hp Hnd.
  assert (Hm : missing_dates sp500_dates obs1 = missing_dates sp500_dates obs2).
  { unfold missing_dates. by rewrite (dates_of_perm obs1 obs2 Hp). }
  assert (Hf : forward_fill obs1 (missing_dates sp500_dates obs1)
               = forward_fill obs2 (missing_dates sp500_dates obs2)).
  { rewrite <- Hm. by apply forward_fill_perm. }
  split; [exact Hf|]. split; [unfold filled_dates; by rewrite Hm|].
  unfold align, align_with. rewrite <- Hf, <- Hm.
  destruct (m <? _)%Z; [done|].
  destruct (decide (missing_dates sp500_dates obs1 = ∅)) as [He|Hne].
  - split; [done|]. intros obs1' obs2' [= <-] [= <-] d.
    unfold aligned_value. by rewrite (obs_dict_perm obs1 obs2 Hp Hnd).
  - destruct (forward_fill obs1 _) as [obs'|]; [|done].
    split; [done|]. by intros obs1' obs2' [= <-] [= <-] d.
Qed.

Lemma align_order_independent_witness :
  rev ex_full ≡ₚ ex_full /\ NoDup (map o_date (rev ex_full)) /\
  align 1 (dates_of ex_sp500) (rev ex_full) = aligned (rev ex_full) /\
  align 1 (dates_of ex_sp500) ex_full = aligned ex_full /\
  forall d, aligned_value (rev ex_full) d = aligned_value ex_full d.
Proof.
  assert (Hp : rev ex_full ≡ₚ ex_full) by (symmetry; apply Permutation_rev).
  assert (Hnd : NoDup (map o_date (rev ex_full))).
  { apply (bool_decide_eq_true_1 _). vm_compute. reflexivity. }
  assert (H1 : align 1 (dates_of ex_sp500) (rev ex_full) = aligned (rev ex_full))
    by (vm_compute; reflexivity).
  assert (H2 : align 1 (dates_of ex_sp500) ex_full = aligned ex_full)
    by (vm_compute; reflexivity).
  split; [exact Hp|]. split; [exact Hnd|]. split; [exact H1|]. split; [exact H2|].
  destruct (align_order_independent 1 (dates_of ex_sp500) (rev ex_full) ex_full
              Hp Hnd) as (_ & _ & _ & Hv).
  exact (Hv (rev ex_full) ex_full H1 H2).
Defined.

Lemma filter_all {A} (p : A -> bool) l :
  (forall x, x ∈ l -> p x = true) -> List.filter p l = l.
Proof.
  induction l as [|x l IH]; intros H; cbn; [done|].
  rewrite (H x) by apply list_elem_of_here.
  f_equal. apply IH. intros y Hy. apply H. by apply list_elem_of_further.
Qed.

(** X5. After alignment the candidate has a value exactly on its own dates
    and on the benchmark dates, so every benchmark date can be looked up;
    the list grows by one entry for each filled date. *)
Theorem aligned_domain m sp500_dates obs obs' :
  align m sp500_dates obs = aligned obs' ->
  (forall d, is_Some (aligned_value obs' d) <->
             d ∈ map o_date obs \/ d ∈ sp500_dates) /\
  (forall d, d ∈ sp500_dates -> is_Some (aligned_value obs' d)) /\
  length obs' = length obs + length (filled_dates sp500_dates obs).
Proof.
  intros Ha.
  assert (Hdom : forall d, is_Some (aligned_value obs' d) <->
                           d ∈ map o_date obs \/ d ∈ sp500_dates).
  { intros d. unfold aligned_value.
    apply align_with_aligned in Ha as [_ [[He ->] | [Hne Hf]]].
    - rewrite obs_dict_is_Some. split; [by left|]. intros [Hd|Hd]; [done|].
      destruct (decide (d ∈ map o_date obs)) as [Hin|Hn]; [done|].
      assert (d ∈ missing_dates sp500_dates obs) as Hmiss
        by by apply missing_dates_elem_of.
      rewrite He in Hmiss. by apply not_elem_of_empty in Hmiss.
    - destruct (forward_fill_lookup _ _ _ d Hf) as (H1 & H2 & H3).
      destruct (decide (d ∈ map o_date obs)) as [Hin|Hn].
      + rewrite (H1 Hin), obs_dict_is_Some. split; [by left | done].
      + destruct (decide (d ∈ sp500_dates)) as [Hd|Hd].
        * destruct H2 as (v & -> & _); [by apply missing_dates_elem_of | done|].
          split; [by right | done].
        * rewrite H3; [|by intros [? _]%missing_dates_elem_of | done].
          split; [by intros [? ?] | by intros [?|?]]. }
  split; [exact Hdom|]. split; [intros d Hd; apply Hdom; by right|].
  apply align_with_aligned in Ha as [_ [[He ->] | [Hne Hf]]].
  - unfold filled_dates, sorted_set. rewrite He, elements_empty. cbn. lia.
  - apply forward_fill_Some in Hf as (new & -> & Hdates & _).
    rewrite length_app, sorted_by_perm. f_equal.
    rewrite <- (length_map o_date new), Hdates. unfold absent_dates, filled_dates.
    f_equal. apply filter_all. intros d Hd.
    apply sorted_set_elem_of, missing_dates_elem_of in Hd as [_ Hn].
    by apply bool_decide_eq_true.
Qed.

Lemma aligned_domain_witness :
  align 1 (dates_of ex_sp500) ex_gap = aligned ex_gap_aligned /\
  is_Some (aligned_value ex_gap_aligned "2024-03-08") /\
  length ex_gap_aligned
  = length ex_gap + length (filled_dates (dates_of ex_sp500) ex_gap).
Proof.
  assert (Ha : align 1 (dates_of ex_sp500) ex_gap = aligned ex_gap_aligned)
    by (vm_compute; reflexivity).
  split; [exact Ha|].
  destruct (aligned_domain 1 (dates_of ex_sp500) ex_gap ex_gap_aligned Ha)
    as (_ & Hb & Hl).
  split; [|exact Hl]. apply Hb, elem_of_dates_of.
  apply (list_elem_of_lookup_2 _ 5). vm_compute. reflexivity.
Defined.

(** X6. Alignment is idempotent: an aligned candidate has every benchmark
    date, so aligning it again fills nothing and returns it unchanged. *)
Theorem align_idempotent m sp500_dates obs obs' :
  align m sp500_dates obs = aligned obs' ->
  missing_dates sp500_dates obs' = ∅ /\
  filled_dates sp500_dates obs' = [] /\
  align m sp500_dates obs' = aligned obs'.
Proof.
  intros Ha.
  assert (He : missing_dates sp500_dates obs' = ∅).
  { apply set_eq. intros d. rewrite missing_dates_elem_of. split.
    - intros [Hd Hn]. exfalso. apply Hn, obs_dict_is_Some.
      pose proof (align_with_aligned _ _ _ _ _ Ha) as [_ [[He ->] | [Hne Hf]]].
      + apply obs_dict_is_Some. destruct (decide (d ∈ map o_date obs)); [done|].
        assert (d ∈ missing_dates sp500_dates obs) as Hmiss
          by by apply missing_dates_elem_of.
        rewrite He in Hmiss. by apply not_elem_of_empty in Hmiss.
      + destruct (forward_fill_lookup _ _ _ d Hf) as (H1 & H2 & _).
        destruct (decide (d ∈ map o_date obs)) as [Hin|Hn'].
        * rewrite (H1 Hin). by apply obs_dict_is_Some.
        * destruct H2 as (v & -> & _); [by apply missing_dates_elem_of|done|done].
    - by intros ?%not_elem_of_empty. }
  split; [exact He|]. split.
  - unfold filled_dates, sorted_set. by rewrite He, elements_empty.
  - apply align_with_aligned in Ha as [Hle _].
    unfold align, align_with. rewrite He, size_empty.
    destruct (Z.ltb_spec m (Z.of_nat 0)); [lia|]. by rewrite decide_True.
Qed.

Lemma align_idempotent_witness :
  align 1 (dates_of ex_sp500) ex_gap = aligned ex_gap_aligned /\
  align 1 (dates_of ex_sp500) ex_gap_aligned = aligned ex_gap_aligned.
Proof.
  assert (Ha : align 1 (dates_of ex_sp500) ex_gap = aligned ex_gap_aligned)
    by (vm_compute; reflexivity).
  split; [exact Ha|].
  exact (proj2 (proj2 (align_idempotent 1 (dates_of ex_sp500) ex_gap
                         ex_gap_aligned Ha))).
Defined.

(** ** The order of Python floats *)

Lemma SFleb_trans x y z :
  SpecFloat.SFleb x y = true -> SpecFloat.SFleb y z = true ->
  SpecFloat.SFleb x z = true.
Proof.
  unfold SpecFloat.SFleb.
  destruct x as [[]|[]| |[] mx ex], y as [[]|[]| |[] my ey],
    z as [[]|[]| |[] mz ez]; cbn -[Z.compare]; try done;
  change (Pos.compare_cont Eq) with Pos.compare;
  destruct (Z.compare_spec ex ey), (Z.compare_spec ey ez), (Z.compare_spec ex ez);
    try done; try lia; subst;
  destruct (Pos.compare_spec mx my), (Pos.compare_spec my mz), (Pos.compare_spec mx mz);
    cbn; try done; try lia.
Qed.

Lemma SFleb_total x y :
  SpecFloat.SFltb x y = false ->
  x <> SpecFloat.S754_nan -> y <> SpecFloat.S754_nan ->
  SpecFloat.SFleb y x = true.
Proof.
  unfold SpecFloat.SFleb, SpecFloat.SFltb.
  destruct x as [[]|[]| |[] mx ex], y as [[]|[]| |[] my ey];
    cbn -[Z.compare]; try done;
  change (Pos.compare_cont Eq) with Pos.compare;
  destruct (Z.compare_spec ex ey), (Z.compare_spec ey ex);
    try done; try lia; subst;
  destruct (Pos.compare_spec mx my), (Pos.compare_spec my mx);
    cbn; try done; try lia.
Qed.

Lemma SFltb_trans x y z :
  SpecFloat.SFltb x y = true -> SpecFloat.SFltb y z = true ->
  SpecFloat.SFltb x z = true.
Proof.
  unfold SpecFloat.SFltb.
  destruct x as [[]|[]| |[] mx ex], y as [[]|[]| |[] my ey],
    z as [[]|[]| |[] mz ez]; cbn -[Z.compare]; try done;
  change (Pos.compare_cont Eq) with Pos.compare;
  destruct (Z.compare_spec ex ey), (Z.compare_spec ey ez), (Z.compare_spec ex ez);
    try done; try lia; subst;
  destruct (Pos.compare_spec mx my), (Pos.compare_spec my mz), (Pos.compare_spec mx mz);
    cbn; try done; try lia.
Qed.

Lemma SFltb_leb x y : SpecFloat.SFltb x y = true -> SpecFloat.SFleb x y = true.
Proof.
  unfold SpecFloat.SFltb, SpecFloat.SFleb.
  by destruct (SpecFloat.SFcompare x y) as [[]|].
Qed.

Lemma not_nan_spec x : not_nan x <-> FloatOps.Prim2SF x <> SpecFloat.S754_nan.
Proof.
  unfold not_nan, FloatOps.Prim2SF.
  destruct (PrimFloat.is_nan x); [split; [done | by intros H] |].
  split; [intros _ | done].
  destruct (PrimFloat.is_zero x); [done|].
  destruct (PrimFloat.is_infinity x); [done|].
  destruct (FloatOps.Z.frexp x) as [r exp].
  destruct (SpecFloat.shr_fexp _ _ _ _ _) as [shr e'].
  by destruct (SpecFloat.shr_m shr).
Qed.

Lemma SFltb_not_nan_r x y : SpecFloat.SFltb x y = true -> y <> SpecFloat.S754_nan.
Proof. intros H ->. by destruct x as [[]|[]| |[] mx ex]. Qed.

Lemma SFltb_not_nan_l x y : SpecFloat.SFltb x y = true -> x <> SpecFloat.S754_nan.
Proof. by intros H ->. Qed.

Lemma fgt_not_nan x thr : fgt x thr = true -> not_nan x.
Proof.
  unfold fgt. rewrite FloatAxioms.ltb_spec, not_nan_spec.
  apply SFltb_not_nan_r.
Qed.

Lemma leb_trans x y z :
  PrimFloat.leb x y = true -> PrimFloat.leb y z = true -> PrimFloat.leb x z = true.
Proof. rewrite !FloatAxioms.leb_spec. apply SFleb_trans. Qed.

Lemma ltb_trans x y z :
  PrimFloat.ltb x y = true -> PrimFloat.ltb y z = true -> PrimFloat.ltb x z = true.
Proof. rewrite !FloatAxioms.ltb_spec. apply SFltb_trans. Qed.

Lemma ltb_leb x y : PrimFloat.ltb x y = true -> PrimFloat.leb x y = true.
Proof. rewrite FloatAxioms.ltb_spec, FloatAxioms.leb_spec. apply SFltb_leb. Qed.

Lemma leb_total x y :
  not_nan x -> not_nan y -> PrimFloat.ltb x y = false -> PrimFloat.leb y x = true.
Proof.
  rewrite !not_nan_spec, FloatAxioms.ltb_spec, FloatAxioms.leb_spec.
  intros Hx Hy H. by apply SFleb_total.
Qed.

Lemma leb_refl x : not_nan x -> PrimFloat.leb x x = true.
Proof.
  intros Hx. apply leb_total; [done..|].
  rewrite FloatAxioms.ltb_spec. unfold SpecFloat.SFltb.
  destruct (FloatOps.Prim2SF x) as [[]|[]| |[] mx ex]; cbn; try done;
    by rewrite Z.compare_refl, Pos.compare_cont_refl.
Qed.

(** ** [sort(key=..., reverse=True)] *)

Section sort_desc_facts.
Context {A : Type} (key : A -> float).

Global Instance desc_by_trans : Transitive (desc_by key).
Proof. intros a b c Hab Hbc. unfold desc_by in *. by apply (leb_trans _ (key b)). Qed.

Lemma insert_desc_sorted x l :
  not_nan (key x) -> Forall (fun y => not_nan (key y)) l ->
  StronglySorted (desc_by key) l ->
  StronglySorted (desc_by key) (insert_desc key x l).
Proof.
  intros Hx Hl Hs. induction Hs as [|y l Hs IH Hy]; cbn.
  - repeat constructor.
  - apply Forall_cons in Hl as [Hny Hl].
    destruct (PrimFloat.ltb (key x) (key y)) eqn:E.
    + constructor; [by apply IH|].
      apply Forall_forall. intros z Hz.
      rewrite insert_desc_perm in Hz. apply elem_of_cons in Hz as [->|Hz].
      * by apply ltb_leb.
      * rewrite Forall_forall in Hy. by apply Hy.
    + assert (desc_by key x y) as Hxy by by apply leb_total.
      constructor; [by constructor|]. constructor; [done|].
      apply Forall_forall. intros z Hz. rewrite Forall_forall in Hy.
      by apply (desc_by_trans x y z); [|apply Hy].
Qed.

Lemma sort_desc_sorted l :
  Forall (fun y => not_nan (key y)) l ->
  StronglySorted (desc_by key) (sort_desc key l).
Proof.
  induction l as [|x l IH]; intros Hl; cbn; [constructor|].
  apply Forall_cons in Hl as [Hx Hl]. apply insert_desc_sorted; [done| |by apply IH].
  apply Forall_forall. intros y Hy. apply sort_desc_elem_of in Hy.
  rewrite Forall_forall in Hl. by apply Hl.
Qed.

End sort_desc_facts.

(** ** The curated list, continued *)

Lemma fgt_015_01 x : fgt x 0.15 = true -> fgt x 0.1 = true.
Proof.
  unfold fgt. apply ltb_trans. vm_compute. reflexivity.
Qed.

Lemma classify_threshold c k : classify c = Some k -> fgt (row_abs_r c) 0.1 = true.
Proof.
  destruct k.
  - intros [_ H]%classify_funny. by apply fgt_015_01.
  - by intros [_ [_ H]]%classify_financial.
  - intros (_ & _ & H)%classify_other. by apply fgt_03_01.
Qed.

(** X7. The curated list is in descending order of [abs_r]: each entry's
    [abs_r] is at least that of every later entry, so the worker's list starts
    with the strongest correlation.  Every entry has an [abs_r] above 0.1, which
    rules out a NaN. *)
Theorem curate_descending all_corr :
  StronglySorted (desc_by cur_abs_r) (curate all_corr) /\
  (forall e, e ∈ curate all_corr ->
     fgt (cur_abs_r e) 0.1 = true /\ not_nan (cur_abs_r e)).
Proof.
  assert (Hthr : forall e, e ∈ curate all_corr -> fgt (cur_abs_r e) 0.1 = true).
  { intros e (_ & Hc & _)%curate_entry. by apply (classify_threshold _ _ Hc). }
  split.
  - unfold curate. apply sort_desc_sorted, Forall_forall. intros e He.
    apply (fgt_not_nan _ 0.1), Hthr. unfold curate. by apply sort_desc_elem_of.
  - intros e He. split; [by apply Hthr|]. by apply (fgt_not_nan _ 0.1), Hthr.
Qed.

Lemma financial_step_eq cur b v c :
  financial_step (cur, b, v) c =
  let b' := if baml_title c then (b + 1)%Z else b in
  if baml_title c && (5 <? b')%Z then (cur, b', v)
  else
    let v' := if vix_title c then (v + 1)%Z else v in
    if vix_title c && (3 <? v')%Z then (cur, b', v')
    else (cur ++ [mkCurated c financial], b', v').
Proof. reflexivity. Qed.

(** The financial loop appends a sublist of the rows it walks; a row of
    neither family is always appended. *)
Lemma financial_loop_shape l cur b v :
  exists kept,
    (fold_left financial_step l (cur, b, v)).1.1
    = cur ++ map (fun c => mkCurated c financial) kept /\
    kept `sublist_of` l /\
    forall c, c ∈ l -> baml_title c = false -> vix_title c = false -> c ∈ kept.
Proof.
  revert cur b v. induction l as [|c l IH]; intros cur b v.
  - exists []. cbn. rewrite app_nil_r. split; [done|]. split; [done|].
    by intros c ?%elem_of_nil.
  - cbn [fold_left]. rewrite financial_step_eq. cbn zeta.
    destruct (baml_title c && _) eqn:Eb.
    { destruct (IH cur (if baml_title c then (b + 1)%Z else b) v)
        as (kept & -> & Hsub & Hall).
      exists kept. split; [done|]. split; [by apply sublist_cons|].
      intros c' [->|Hc']%elem_of_cons Hb Hv; [|by apply Hall].
      by rewrite Hb in Eb. }
    destruct (vix_title c && _) eqn:Ev.
    { destruct (IH cur (if baml_title c then (b + 1)%Z else b)
                  (if vix_title c then (v + 1)%Z else v))
        as (kept & -> & Hsub & Hall).
      exists kept. split; [done|]. split; [by apply sublist_cons|].
      intros c' [->|Hc']%elem_of_cons Hb Hv; [|by apply Hall].
      by rewrite Hv in Ev. }
    destruct (IH (cur ++ [mkCurated c financial])
                (if baml_title c then (b + 1)%Z else b)
                (if vix_title c then (v + 1)%Z else v))
      as (kept & -> & Hsub & Hall).
    exists (c :: kept). split; [by rewrite <- app_assoc|].
    split; [by apply sublist_skip|].
    intros c' [->|Hc']%elem_of_cons Hb Hv; [apply list_elem_of_here|].
    apply list_elem_of_further. by apply Hall.
Qed.

Lemma other_loop_shape l cur :
  fold_left other_step l cur
  = cur ++ map (fun c => mkCurated c other)
             (List.filter (fun c => negb (str_in "ICE BofA" (row_title c)
                                          || str_in "CBOE" (row_title c))) l).
Proof.
  revert cur. induction l as [|c l IH]; intros cur; cbn [fold_left List.filter].
  - cbn. by rewrite app_nil_r.
  - rewrite IH. unfold other_step.
    destruct (str_in "ICE BofA" (row_title c) || str_in "CBOE" (row_title c));
      cbn [negb]; [done|].
    by rewrite <- app_assoc.
Qed.

Lemma list_filter_sublist {A} (p : A -> bool) l : List.filter p l `sublist_of` l.
Proof.
  induction l as [|x l IH]; cbn; [done|].
  destruct (p x); [by apply sublist_skip | by apply sublist_cons].
Qed.

(** The three parts of [curated] before the final sort. *)
Lemma build_curated_shape cl :
  exists kept_financial,
    build_curated cl
    = map (fun c => mkCurated c funny) (sort_desc row_abs_r (funny_series cl))
      ++ map (fun c => mkCurated c financial) kept_financial
      ++ map (fun c => mkCurated c other)
           (List.filter (fun c => negb (str_in "ICE BofA" (row_title c)
                                        || str_in "CBOE" (row_title c)))
              (sort_desc row_abs_r (other_series cl))) /\
    kept_financial `sublist_of` sort_desc row_abs_r (financial_series cl) /\
    forall c, c ∈ financial_series cl ->
              baml_title c = false -> vix_title c = false -> c ∈ kept_financial.
Proof.
  unfold build_curated. rewrite fold_append_map, app_nil_l.
  destruct (financial_loop_shape (sort_desc row_abs_r (financial_series cl))
              (map (fun c => mkCurated c funny)
                 (sort_desc row_abs_r (funny_series cl))) 0 0)
    as (kept & Hk & Hsub & Hall).
  destruct (fold_left financial_step _ _) as [[cur b] v]. cbn [fst] in Hk.
  subst cur. exists kept. rewrite other_loop_shape, <- app_assoc.
  split; [done|]. split; [done|].
  intros c Hc. apply Hall. by apply sort_desc_elem_of.
Qed.

Lemma filter3_submseteq {A} (p q r : A -> bool) l :
  (forall x, p x = true -> q x = false /\ r x = false) ->
  (forall x, q x = true -> r x = false) ->
  List.filter p l ++ List.filter q l ++ List.filter r l ⊆+ l.
Proof.
  intros Hp Hq. induction l as [|x l IH]; [done|]. cbn [List.filter].
  destruct (p x) eqn:Ep.
  - destruct (Hp x Ep) as [-> ->]. cbn. by apply submseteq_skip.
  - destruct (q x) eqn:Eq'.
    + rewrite (Hq x Eq'). rewrite <- app_comm_cons, <- Permutation_middle.
      by apply submseteq_skip.
    + destruct (r x).
      * rewrite app_assoc, <- Permutation_middle, <- app_assoc.
        by apply submseteq_skip.
      * by apply submseteq_cons.
Qed.

Lemma in_category_exclusive k1 k2 c :
  k1 <> k2 -> in_category k1 c = true -> in_category k2 c = false.
Proof.
  unfold in_category. generalize (classify c). intros o Hne H1.
  apply bool_decide_eq_true in H1. subst o.
  apply bool_decide_eq_false. congruence.
Qed.

(** The rows of [curated] are taken from the deduplicated rows, each at
    most once. *)
Lemma build_curated_rows deduped :
  map cur_row (build_curated (classify_all deduped)) ⊆+ deduped.
Proof.
  destruct (build_curated_shape (classify_all deduped)) as (kept & -> & Hsub & _).
  rewrite !map_app, !map_map. cbn [cur_row]. rewrite !map_id.
  rewrite classify_all_spec in *. cbn [funny_series financial_series other_series] in *.
  etransitivity; [|apply (filter3_submseteq (in_category funny)
                            (in_category financial) (in_category other))].
  - apply submseteq_app; [by rewrite sort_desc_perm|].
    apply submseteq_app.
    + etransitivity; [apply sublist_submseteq, Hsub|]. by rewrite sort_desc_perm.
    + etransitivity; [apply sublist_submseteq, list_filter_sublist|].
      by rewrite sort_desc_perm.
  - intros x Hx. split; by apply (in_category_exclusive funny).
  - intros x Hx. by apply (in_category_exclusive financial).
Qed.

Lemma submseteq_NoDup {A} (l k : list A) : l ⊆+ k -> NoDup k -> NoDup l.
Proof.
  intros [k' Hk]%submseteq_Permutation Hnd. rewrite Hk in Hnd.
  by apply NoDup_app in Hnd as [? _].
Qed.

Lemma curate_rows all_corr :
  map cur_row (curate all_corr) ⊆+ dedup (reliable all_corr).
Proof.
  unfold curate. rewrite sort_desc_perm. apply build_curated_rows.
Qed.

Lemma reliable_sublist all_corr : reliable all_corr `sublist_of` all_corr.
Proof. apply list_filter_sublist. Qed.

(** X8. No title occurs twice in the curated list, nor in the list written
    for the worker, and the curated list has at most as many entries as the
    input has rows. *)
Theorem curated_titles_unique all_corr :
  NoDup (map title_of (curate all_corr)) /\
  NoDup (map snd (curated_for_worker all_corr)) /\
  length (curate all_corr) <= length all_corr.
Proof.
  assert (Ht : NoDup (map title_of (curate all_corr))).
  { apply (submseteq_NoDup _ (titles (dedup (reliable all_corr))));
      [|apply dedup_NoDup].
    unfold titles, title_of. rewrite <- (map_map cur_row row_title).
    apply (fmap_submseteq row_title), curate_rows. }
  split; [exact Ht|]. split.
  - unfold curated_for_worker. by rewrite map_map.
  - rewrite <- (length_map cur_row).
    etransitivity; [apply submseteq_length, curate_rows|].
    etransitivity; [apply sublist_length, dedup_sublist|].
    apply sublist_length, reliable_sublist.
Qed.

(** X9. Nothing but the caps removes a classified row: every funny row is
    in the curated list, every financial row whose title names neither
    capped family is, and every other row whose title has neither
    "ICE BofA" nor "CBOE" is. *)
Theorem kept_unless_capped all_corr c :
  c ∈ dedup (reliable all_corr) ->
  (funny_rule c -> mkCurated c funny ∈ curate all_corr) /\
  (~ funny_rule c -> financial_rule c ->
   baml_title c = false -> vix_title c = false ->
   mkCurated c financial ∈ curate all_corr) /\
  (~ funny_rule c -> ~ financial_rule c -> other_rule c ->
   baml_title c = false -> str_in "CBOE" (row_title c) = false ->
   mkCurated c other ∈ curate all_corr).
Proof.
  intros Hc.
  destruct (series_of_classify_all (dedup (reliable all_corr)) c) as (Hf & Hi & Ho).
  destruct (build_curated_shape (classify_all (dedup (reliable all_corr))))
    as (kept & Hb & _ & Hall).
  unfold curate. setoid_rewrite sort_desc_elem_of. rewrite Hb.
  split; [|split].
  - intros Hr. apply elem_of_app. left.
    apply (list_elem_of_fmap_2 (fun c => mkCurated c funny)), sort_desc_elem_of, Hf.
    split; [done | by apply classify_funny].
  - intros Hnf Hr Hb' Hv'. apply elem_of_app. right. apply elem_of_app. left.
    apply (list_elem_of_fmap_2 (fun c => mkCurated c financial)), Hall; [|done..].
    apply Hi. split; [done | by apply classify_financial].
  - intros Hnf Hni Hr Hb' Hv'. apply elem_of_app. right. apply elem_of_app. right.
    apply (list_elem_of_fmap_2 (fun c => mkCurated c other)).
    apply list_elem_of_In, filter_In. split.
    + apply list_elem_of_In, sort_desc_elem_of, Ho.
      split; [done | by apply classify_other].
    + unfold baml_title in Hb'. by rewrite Hb', Hv'.
Qed.

Lemma kept_unless_capped_witness :
  ex_mortgage ∈ dedup (reliable ex_rows) /\
  mkCurated ex_mortgage financial ∈ curate ex_rows.
Proof.
  assert (H : ex_mortgage ∈ dedup (reliable ex_rows)).
  { apply (list_elem_of_lookup_2 _ 3). vm_compute. reflexivity. }
  split; [exact H|].
  destruct (kept_unless_capped ex_rows ex_mortgage H) as (_ & Hfin & _).
  apply Hfin.
  - intros Hr. apply funny_rule_b in Hr. revert Hr. vm_compute. discriminate.
  - apply financial_rule_b. vm_compute. reflexivity.
  - vm_compute. reflexivity.
  - vm_compute. reflexivity.
Defined.

Lemma first_with_title_NoDup rows c :
  NoDup (titles rows) -> c ∈ rows -> first_with_title (row_title c) rows = Some c.
Proof.
  unfold first_with_title, titles.
  induction rows as [|x rows IH]; [by intros _ ?%elem_of_nil|].
  cbn [map List.find]. intros [Hx Hnd]%NoDup_cons [->|Hc]%elem_of_cons.
  - by rewrite bool_decide_eq_true_2.
  - rewrite bool_decide_eq_false_2; [by apply IH|].
    intros Heq. apply Hx. rewrite Heq. by apply list_elem_of_fmap_2.
Qed.

(** X10. Every entry of the curated list carries a row of the input with at
    least 20 aligned dates, and that row is the first such row of the input
    with its title: a later row with the same title never stands in for
    it. *)
Theorem curated_entry_provenance all_corr e :
  e ∈ curate all_corr ->
  cur_row e ∈ all_corr /\
  (20 <= aligned_count (cur_row e))%Z /\
  first_with_title (title_of e) (reliable all_corr) = Some (cur_row e) /\
  (row_n_dates (cur_row e) = None ->
   exists n, row_n_aligned (cur_row e) = Some n /\ (20 <= n)%Z).
Proof.
  intros (Hd & _ & _)%curate_entry.
  assert (Hr : cur_row e ∈ reliable all_corr).
  { apply (elem_of_sublist _ _ _ Hd), dedup_sublist. }
  unfold reliable in Hr. apply list_elem_of_In, filter_In in Hr as [Hin Hn].
  apply list_elem_of_In in Hin. apply Z.leb_le in Hn.
  split; [done|]. split; [done|]. split.
  - rewrite <- dedup_first. apply first_with_title_NoDup; [apply dedup_NoDup | done].
  - intros Hnone. unfold aligned_count in Hn. rewrite Hnone in Hn.
    destruct (row_n_aligned (cur_row e)) as [n|]; [by exists n | lia].
Qed.

Lemma curated_entry_provenance_witness :
  mkCurated ex_mortgage financial ∈ curate ex_rows /\
  (20 <= aligned_count ex_mortgage)%Z /\
  first_with_title "30-Year Fixed Rate Mortgage Average in the United States"
    (reliable ex_rows) = Some ex_mortgage.
Proof.
  assert (H : mkCurated ex_mortgage financial ∈ curate ex_rows).
  { apply (list_elem_of_lookup_2 _ 10). vm_compute. reflexivity. }
  split; [exact H|].
  destruct (curated_entry_provenance ex_rows _ H) as (_ & Hn & Hf & _).
  split; [exact Hn | exact Hf].
Defined.

(** *** The caps of the financial loop *)

Lemma financial_loop_baml_count l cur b v :
  (fold_left financial_step l (cur, b, v)).1.2
  = (b + Z.of_nat (count_if baml_title l))%Z.
Proof.
  revert cur b v. induction l as [|c l IH]; intros cur b v.
  - cbn. lia.
  - cbn [fold_left]. rewrite financial_step_eq. cbn zeta.
    unfold count_if. cbn [List.filter].
    destruct (baml_title c) eqn:Eb; cbn [andb length];
      repeat (destruct (_ && _) || destruct (_ <? _)%Z); rewrite IH;
      unfold count_if; lia.
Qed.

Lemma financial_loop_vix_count l cur b v :
  let v' := (fold_left financial_step l (cur, b, v)).2 in
  (v + Z.of_nat (count_if (fun r => vix_title r && negb (baml_title r)) l) <= v')%Z
  /\ (v' <= v + Z.of_nat (count_if vix_title l))%Z.
Proof.
  revert cur b v. induction l as [|c l IH]; intros cur b v.
  - cbn. lia.
  - cbn [fold_left]. rewrite financial_step_eq. cbn zeta.
    unfold count_if. cbn [List.filter].
    destruct (baml_title c) eqn:Eb, (vix_title c) eqn:Ev; cbn [andb negb length];
      repeat (destruct (_ <? _)%Z); cbn [andb negb length];
      match goal with
      | |- context[fold_left financial_step l (?c0, ?b0, ?v0)] =>
          specialize (IH c0 b0 v0)
      end; unfold count_if in IH; cbn zeta in IH; lia.
Qed.

Lemma financial_loop_entries l cur b v e :
  e ∈ (fold_left financial_step l (cur, b, v)).1.1 ->
  e ∈ cur \/ exists c, c ∈ l /\ e = mkCurated c financial.
Proof.
  destruct (financial_loop_shape l cur b v) as (kept & -> & Hsub & _).
  intros [He|He]%elem_of_app; [by left|]. right.
  apply list_elem_of_fmap in He as (c & -> & Hc). exists c.
  split; [|done]. by apply (elem_of_sublist _ _ _ Hc).
Qed.

Lemma financial_loop_prefix l cur b v e :
  e ∈ cur -> e ∈ (fold_left financial_step l (cur, b, v)).1.1.
Proof.
  destruct (financial_loop_shape l cur b v) as (kept & -> & _).
  intros He. apply elem_of_app. by left.
Qed.

Lemma build_curated_financial cl e :
  cur_category e = financial ->
  e ∈ build_curated cl <->
  e ∈ (fold_left financial_step (sort_desc row_abs_r (financial_series cl))
         (map (fun c => mkCurated c funny)
            (sort_desc row_abs_r (funny_series cl)), 0%Z, 0%Z)).1.1.
Proof.
  intros Hk. unfold build_curated. rewrite fold_append_map, app_nil_l.
  destruct (fold_left financial_step _ _) as [[cur b] v]. cbn [fst].
  rewrite other_loop_shape, elem_of_app. split; [|by left].
  intros [He|He]; [done|].
  apply list_elem_of_fmap in He as (c & -> & _). done.
Qed.

(** What becomes of the row [c] that the financial loop meets after the
    rows [pre]: it is in [curated] exactly when its turn appends it. *)
Lemma financial_turn cl pre c post :
  NoDup (financial_series cl) ->
  sort_desc row_abs_r (financial_series cl) = pre ++ c :: post ->
  let st := fold_left financial_step pre
              (map (fun c => mkCurated c funny)
                 (sort_desc row_abs_r (funny_series cl)), 0%Z, 0%Z) in
  mkCurated c financial ∈ build_curated cl <->
  (financial_step st c).1.1 = st.1.1 ++ [mkCurated c financial].
Proof.
  intros Hnd Hl st.
  assert (Hnd' : NoDup (pre ++ c :: post)).
  { rewrite <- Hl. by rewrite sort_desc_perm. }
  apply NoDup_app in Hnd' as (_ & Hpre & [Hpost _]%NoDup_cons).
  rewrite (build_curated_financial cl (mkCurated c financial) eq_refl), Hl,
    fold_left_app.
  cbn [fold_left]. fold st.
  assert (Hst : mkCurated c financial ∉ st.1.1).
  { unfold st. intros [He|(c' & Hc' & [= <-])]%financial_loop_entries.
    - by apply list_elem_of_fmap in He as (c' & [=] & _).
    - apply (Hpre c Hc'). apply list_elem_of_here. }
  destruct st as [[cur b] v] eqn:Est. cbn [fst] in *.
  rewrite financial_step_eq. cbn zeta.
  destruct (baml_title c && _).
  { cbn [fst]. split.
    - intros [He|(c' & Hc' & [= <-])]%financial_loop_entries; done.
    - intros He. exfalso. apply (f_equal length) in He.
      rewrite length_app in He. cbn in He. lia. }
  destruct (vix_title c && _).
  { cbn [fst]. split.
    - intros [He|(c' & Hc' & [= <-])]%financial_loop_entries; done.
    - intros He. exfalso. apply (f_equal length) in He.
      rewrite length_app in He. cbn in He. lia. }
  cbn [fst]. split; [done|]. intros _.
  apply financial_loop_prefix, elem_of_app. right. apply list_elem_of_here.
Qed.

Lemma financial_series_NoDup all_corr :
  NoDup (financial_series (classify_all (dedup (reliable all_corr)))).
Proof.
  rewrite classify_all_spec. cbn [financial_series].
  apply (sublist_NoDup _ (dedup (reliable all_corr))); [|apply list_filter_sublist].
  apply (NoDup_fmap_1 row_title), dedup_NoDup.
Qed.

Lemma financial_series_sorted cl :
  (forall c, c ∈ financial_series cl -> classify c = Some financial) ->
  StronglySorted (desc_by row_abs_r) (sort_desc row_abs_r (financial_series cl)).
Proof.
  intros H. apply sort_desc_sorted, Forall_forall. intros c Hc.
  apply (fgt_not_nan _ 0.1), (classify_threshold c financial), H, Hc.
Qed.

(** X11. The cap on the ICE BofA family keeps the strongest: the financial
    loop walks the financial rows in descending order of [abs_r], and an
    ICE BofA row is in the curated list only if fewer than five ICE BofA
    rows come before it in that order, whether or not those were kept; it
    is in the list whenever that holds and its title does not name the
    CBOE/VIX family as well. *)
Theorem baml_cap_keeps_first_five all_corr pre c post :
  sort_desc row_abs_r (financial_series (classify_all (dedup (reliable all_corr))))
  = pre ++ c :: post ->
  baml_title c = true ->
  (forall c', c' ∈ pre -> desc_by row_abs_r c' c) /\
  (mkCurated c financial ∈ curate all_corr -> count_if baml_title pre < 5) /\
  (count_if baml_title pre < 5 -> vix_title c = false ->
   mkCurated c financial ∈ curate all_corr).
Proof.
  intros Hl Hb. split.
  - intros c' Hc'.
    pose proof (financial_series_sorted (classify_all (dedup (reliable all_corr))))
      as Hs.
    rewrite Hl in Hs. apply (StronglySorted_app_1_elem_of _ pre (c :: post));
      [|done|apply list_elem_of_here].
    apply Hs. intros r Hr.
    by apply (series_of_classify_all (dedup (reliable all_corr)) r) in Hr as [_ ?].
  - unfold curate. setoid_rewrite sort_desc_elem_of.
    rewrite (financial_turn _ pre c post (financial_series_NoDup all_corr) Hl).
    pose proof (financial_loop_baml_count pre
                  (map (fun c => mkCurated c funny)
                     (sort_desc row_abs_r
                        (funny_series (classify_all (dedup (reliable all_corr))))))
                  0 0) as Hcount.
    destruct (fold_left financial_step pre _) as [[cur b] v]. cbn [fst snd] in *.
    rewrite financial_step_eq, Hb. cbn zeta. cbn [andb].
    destruct (Z.ltb_spec 5 (b + 1)) as [Hlt|Hge].
    + split.
      * intros He. exfalso. cbn [fst] in He. apply (f_equal length) in He.
        rewrite length_app in He. cbn in He. lia.
      * intros Hc. lia.
    + split; [intros _; lia|]. intros _ ->. done.
Qed.

Lemma baml_cap_keeps_first_five_witness :
  ex_financial_sorted = take 5 ex_financial_sorted ++ ex_sixth_baml
                          :: drop 6 ex_financial_sorted /\
  baml_title ex_sixth_baml = true /\
  mkCurated ex_sixth_baml financial ∉ curate ex_rows.
Proof.
  assert (H1 : ex_financial_sorted
               = take 5 ex_financial_sorted ++ ex_sixth_baml
                   :: drop 6 ex_financial_sorted)
    by (vm_compute; reflexivity).
  assert (H2 : baml_title ex_sixth_baml = true) by (vm_compute; reflexivity).
  split; [exact H1|]. split; [exact H2|]. intros Hin.
  destruct (baml_cap_keeps_first_five ex_rows _ _ _ H1 H2) as (_ & Hcap & _).
  apply Hcap in Hin. revert Hin. vm_compute. lia.
Defined.

(** X12. The cap on the CBOE/VIX family: a CBOE or VIX row outside the ICE
    BofA family is in the curated list only if fewer than three rows of its
    family that are outside the ICE BofA family come before it in the
    descending order, and it is in the list whenever fewer than three rows
    of its family come before it at all. *)
Theorem vix_cap_keeps_first_three all_corr pre c post :
  sort_desc row_abs_r (financial_series (classify_all (dedup (reliable all_corr))))
  = pre ++ c :: post ->
  vix_title c = true -> baml_title c = false ->
  (mkCurated c financial ∈ curate all_corr ->
   count_if (fun r => vix_title r && negb (baml_title r)) pre < 3) /\
  (count_if vix_title pre < 3 -> mkCurated c financial ∈ curate all_corr).
Proof.
  intros Hl Hv Hb.
  unfold curate. setoid_rewrite sort_desc_elem_of.
  rewrite (financial_turn _ pre c post (financial_series_NoDup all_corr) Hl).
  pose proof (financial_loop_vix_count pre
                (map (fun c => mkCurated c funny)
                   (sort_desc row_abs_r
                      (funny_series (classify_all (dedup (reliable all_corr))))))
                0 0) as Hcount.
  destruct (fold_left financial_step pre _) as [[cur b] v]. cbn [fst snd] in *.
  cbn zeta in Hcount. rewrite financial_step_eq, Hb, Hv. cbn zeta. cbn [andb].
  destruct (Z.ltb_spec 3 (v + 1)) as [Hlt|Hge].
  - split.
    + intros He. exfalso. cbn [fst] in He. apply (f_equal length) in He.
      rewrite length_app in He. cbn in He. lia.
    + intros Hc. lia.
  - split; [intros _; lia | done].
Qed.

Lemma vix_cap_keeps_first_three_witness :
  ex_financial_sorted = take 10 ex_financial_sorted ++ ex_fourth_vix
                          :: drop 11 ex_financial_sorted /\
  vix_title ex_fourth_vix = true /\ baml_title ex_fourth_vix = false /\
  mkCurated ex_fourth_vix financial ∉ curate ex_rows.
Proof.
  assert (H1 : ex_financial_sorted
               = take 10 ex_financial_sorted ++ ex_fourth_vix
                   :: drop 11 ex_financial_sorted)
    by (vm_compute; reflexivity).
  assert (H2 : vix_title ex_fourth_vix = true) by (vm_compute; reflexivity).
  assert (H3 : baml_title ex_fourth_vix = false) by (vm_compute; reflexivity).
  split; [exact H1|]. split; [exact H2|]. split; [exact H3|]. intros Hin.
  destruct (vix_cap_keeps_first_three ex_rows _ _ _ H1 H2 H3) as (Hcap & _).
  apply Hcap in Hin. revert Hin. vm_compute. lia.
Defined.

(** ** The main loop and the run *)


Section RunFacts.
Variable np_std : list float -> float.
Variable np_corrcoef_01 : list float -> list float -> float.
Variable round6 : float -> float.
Variable fetch_observations : nat -> string -> option (list Observation).

(** What an accepted row says of its series and of the benchmark. *)
Lemma process_accepted_row m sp500 series obs row :
  process_series np_std np_corrcoef_01 round6 m sp500 series obs = accepted row ->
  row_of_series row series /\
  row_n_dates row = Some (Z.of_nat (size (dates_of sp500))) /\
  10 <= size (dates_of sp500) /\
  exists r, not_nan r /\ row_r row = round6 r /\
            row_abs_r row = round6 (PrimFloat.abs r).
Proof.
  unfold process_series.
  destruct (align m (dates_of sp500) obs) as [|obs'] eqn:Ea; [done|].
  destruct (mapM (fun d => obs_dict sp500 !! d) _) as [sp_vals|] eqn:Esp; [|done].
  destruct (mapM (fun d => obs_dict obs' !! d) _) as [other_vals|]; [|done].
  destruct (negb _) eqn:En; [|done]. intros [= <-].
  split; [done|]. cbn [row_n_dates row_r row_abs_r]. split.
  { by rewrite sorted_set_length. }
  split.
  - apply mapM_Some_1, Forall2_length in Esp. rewrite sorted_set_length in Esp.
    destruct (decide (10 <= size (dates_of sp500))) as [|Hlt]; [done|].
    exfalso. rewrite pearson_r_short in En by lia. done.
  - eexists. split; [|done]. unfold not_nan. by apply negb_true_iff.
Qed.

Lemma loop_turn_inl m sp500 i series st sid :
  loop_turn np_std np_corrcoef_01 round6 fetch_observations m sp500 i series st
  = inl sid <->
  fetch_observations i (s_id series) = None /\ sid = s_id series.
Proof.
  unfold loop_turn.
  destruct (fetch_observations i (s_id series)) as [obs|].
  - pose proof (process_no_key_error np_std np_corrcoef_01 round6 m sp500 series obs).
    destruct (process_series _ _ _ _ _ _ _); [| | |done]; by split; [|intros []].
  - split; [by intros [= <-] | by intros [_ ->]].
Qed.

Lemma loop_turn_inr m sp500 i series st st' :
  loop_turn np_std np_corrcoef_01 round6 fetch_observations m sp500 i series st
  = inr st' ->
  exists obs,
    fetch_observations i (s_id series) = Some obs /\
    match process_series np_std np_corrcoef_01 round6 m sp500 series obs with
    | partial_overlap =>
        st' = mkLoopState (st_results st) (st_perfect_overlap st)
                (st_partial_overlap st + 1) (st_no_overlap st)
    | no_overlap =>
        st' = mkLoopState (st_results st) (st_perfect_overlap st)
                (st_partial_overlap st) (st_no_overlap st + 1)
    | accepted row =>
        st' = mkLoopState (st_results st ++ [row]) (st_perfect_overlap st + 1)
                (st_partial_overlap st) (st_no_overlap st)
    | key_error => False
    end.
Proof.
  unfold loop_turn.
  destruct (fetch_observations i (s_id series)) as [obs|]; [|done].
  intros H. exists obs. split; [done|].
  destruct (process_series _ _ _ _ _ _ _); by inversion H.
Qed.

Lemma main_loop_inr m sp500 filtered i st st' :
  main_loop np_std np_corrcoef_01 round6 fetch_observations m sp500 i filtered st
  = inr st' ->
  exists rows kept,
    st_results st' = st_results st ++ rows /\
    kept `sublist_of` filtered /\
    Forall2 (made_from np_std np_corrcoef_01 round6 m sp500) rows kept /\
    st_perfect_overlap st' = (st_perfect_overlap st + Z.of_nat (length rows))%Z /\
    (st_perfect_overlap st' + st_partial_overlap st' + st_no_overlap st'
     = st_perfect_overlap st + st_partial_overlap st + st_no_overlap st
       + Z.of_nat (length filtered))%Z /\
    (st_partial_overlap st <= st_partial_overlap st')%Z /\
    (st_no_overlap st <= st_no_overlap st')%Z.
Proof.
  revert i st. induction filtered as [|series rest IH]; intros i st; cbn [main_loop].
  - intros [= <-]. exists [], []. rewrite app_nil_r. cbn.
    repeat split; [done|constructor|lia..].
  - destruct (loop_turn _ _ _ _ _ _ _ _ _) as [sid|st1] eqn:Et; [done|].
    intros (rows & kept & Hres & Hsub & Hall & Hp & Hsum & Hpa & Hno)%IH.
    apply loop_turn_inr in Et as (obs & Hf & Ho).
    destruct (process_series _ _ _ _ _ _ _) as [| |row|] eqn:Ep; [| | |done];
      subst st1; cbn [st_results st_perfect_overlap st_partial_overlap
                        st_no_overlap] in *.
    + exists rows, kept. cbn [length].
      repeat split; [done|by apply sublist_cons|done|lia..].
    + exists rows, kept. cbn [length].
      repeat split; [done|by apply sublist_cons|done|lia..].
    + exists (row :: rows), (series :: kept). cbn [length].
      repeat split; [by rewrite Hres, <- app_assoc|by apply sublist_skip| |lia..].
      constructor; [by exists obs | done].
Qed.

Lemma main_loop_inl m sp500 filtered i st sid :
  main_loop np_std np_corrcoef_01 round6 fetch_observations m sp500 i filtered st
  = inl sid <->
  exists k series,
    filtered !! k = Some series /\ s_id series = sid /\
    fetch_observations (i + k) sid = None /\
    forall j s, j < k -> filtered !! j = Some s ->
                is_Some (fetch_observations (i + j) (s_id s)).
Proof.
  revert i st. induction filtered as [|series rest IH]; intros i st; cbn [main_loop].
  - split; [done|]. by intros (k & s & Hk & _).
  - destruct (loop_turn _ _ _ _ _ _ _ _ _) as [sid'|st1] eqn:Et.
    + apply loop_turn_inl in Et as [Hf ->]. split.
      * intros [= <-]. exists 0, series. rewrite Nat.add_0_r.
        repeat split; [done|]. intros j s Hj. lia.
      * intros (k & s & Hk & Hs & Hnone & Hbefore). destruct k as [|k].
        { cbn in Hk. injection Hk as <-. by rewrite Hs. }
        destruct (Hbefore 0 series) as [obs Hobs]; [lia|done|].
        rewrite Nat.add_0_r in Hobs. congruence.
    + apply loop_turn_inr in Et as (obs & Hf & _). rewrite IH. split.
      * intros (k & s & Hk & Hs & Hnone & Hbefore). exists (S k), s.
        rewrite Nat.add_succ_r. repeat split; [done..|].
        intros [|j] s' Hj Hs'.
        { cbn in Hs'. injection Hs' as <-. rewrite Nat.add_0_r. by exists obs. }
        rewrite Nat.add_succ_r. apply (Hbefore j s'); [lia|done].
      * intros (k & s & Hk & Hs & Hnone & Hbefore). destruct k as [|k].
        { cbn in Hk. injection Hk as <-. subst sid.
          rewrite Nat.add_0_r in Hnone. congruence. }
        exists k, s. rewrite Nat.add_succ_r in Hnone.
        repeat split; [done..|]. intros j s' Hj Hs'.
        specialize (Hbefore (S j) s'). rewrite Nat.add_succ_r in Hbefore.
        apply Hbefore; [lia|done].
Qed.

(** X13. The counters of the main loop account for every series: when the
    loop ends, [perfect_overlap + partial_overlap + no_overlap] is the number
    of series walked and [perfect_overlap] is the number of rows in
    [results]. *)
Theorem main_loop_counters m sp500 filtered st :
  main_loop np_std np_corrcoef_01 round6 fetch_observations m sp500 0 filtered
    loop_init = inr st ->
  (st_perfect_overlap st + st_partial_overlap st + st_no_overlap st
   = Z.of_nat (length filtered))%Z /\
  st_perfect_overlap st = Z.of_nat (length (st_results st)) /\
  (0 <= st_partial_overlap st)%Z /\ (0 <= st_no_overlap st)%Z /\
  length (st_results st) <= length filtered.
Proof.
  intros (rows & kept & Hres & _ & _ & Hp & Hsum & Hpa & Hno)%main_loop_inr.
  cbn in *. subst. repeat split; lia.
Qed.

(** X14. The main loop stops with the error naming a series exactly when
    the request for that series' observations raises and no earlier request
    did; nothing else in a turn can fail, so the loop runs to its end when
    every request returns. *)
Theorem main_loop_abort m sp500 filtered :
  (forall sid,
     main_loop np_std np_corrcoef_01 round6 fetch_observations m sp500 0 filtered
       loop_init = inl sid <->
     exists k series,
       filtered !! k = Some series /\ s_id series = sid /\
       fetch_observations k sid = None /\
       forall j s, j < k -> filtered !! j = Some s ->
                   is_Some (fetch_observations j (s_id s))) /\
  ((forall k s, filtered !! k = Some s -> is_Some (fetch_observations k (s_id s))) ->
   exists st,
     main_loop np_std np_corrcoef_01 round6 fetch_observations m sp500 0 filtered
       loop_init = inr st).
Proof.
  split.
  - intros sid. apply main_loop_inl.
  - intros Hall.
    destruct (main_loop _ _ _ _ _ _ _ _ _) as [sid|st] eqn:E; [|by exists st].
    apply main_loop_inl in E as (k & s & Hk & <- & Hnone & _).
    destruct (Hall k s Hk) as [obs Hobs]. cbn in Hnone. congruence.
Qed.


End RunFacts.

Lemma main_loop_counters_witness :
  ex_main_loop = inr ex_loop_state /\
  (st_perfect_overlap ex_loop_state + st_partial_overlap ex_loop_state
   + st_no_overlap ex_loop_state
   = Z.of_nat (length (filtered ∅ ex_catalog)))%Z /\
  st_perfect_overlap ex_loop_state = Z.of_nat (length (st_results ex_loop_state)).
Proof.
  assert (H : ex_main_loop = inr ex_loop_state) by (vm_compute; reflexivity).
  split; [exact H|].
  destruct (main_loop_counters _ _ _ _ _ _ _ _ H) as (H1 & H2 & _).
  split; [exact H1 | exact H2].
Defined.


(** ** The run *)

Section RunOutput.
Variable np_std : list float -> float.
Variable np_corrcoef_01 : list float -> list float -> float.
Variable round6 : float -> float.

Lemma run_inr fetch_observations cat all_series sp500 rows :
  run np_std np_corrcoef_01 round6 fetch_observations cat all_series sp500
  = inr rows ->
  exists m st,
    all_series <> [] /\ sp500 <> [] /\
    max_missing (size (dates_of sp500)) = Some m /\
    main_loop np_std np_corrcoef_01 round6 fetch_observations m sp500 0
      (filtered cat all_series) loop_init = inr st /\
    rows = sort_desc row_abs_r (st_results st).
Proof.
  unfold run. destruct all_series as [|s0 all_series]; [done|].
  destruct sp500 as [|o0 sp500]; [done|].
  destruct (max_missing _) as [m|]; [|done].
  destruct (main_loop _ _ _ _ _ _ _ _ _) as [sid|st] eqn:E; [done|].
  intros [= <-]. by exists m, st.
Qed.

Lemma run_rows fetch_observations cat all_series sp500 rows row :
  run np_std np_corrcoef_01 round6 fetch_observations cat all_series sp500
  = inr rows ->
  row ∈ rows ->
  exists m s,
    s ∈ filtered cat all_series /\
    made_from np_std np_corrcoef_01 round6 m sp500 row s.
Proof.
  intros (m & st & _ & _ & _ & Hloop & ->)%run_inr Hrow.
  apply sort_desc_elem_of in Hrow.
  apply main_loop_inr in Hloop as (rows & kept & Hres & Hsub & Hall & _).
  cbn in Hres. subst rows.
  apply list_elem_of_lookup_1 in Hrow as [i Hi].
  destruct (Forall2_lookup_l _ _ _ i row Hall Hi) as (s & Hs & Hmade).
  exists m, s. split; [|done].
  apply (elem_of_sublist kept); [|done]. by apply (list_elem_of_lookup_2 _ i).
Qed.



(** X18. Within one run the reliability filter of the curation script is
    all or nothing: every row has the same number of aligned dates, the
    number of benchmark dates, so with 20 benchmark dates or more no row is
    dropped and with fewer all are, and the curated list is empty. *)
Theorem reliable_all_or_nothing fetch_observations cat all_series sp500 rows :
  run np_std np_corrcoef_01 round6 fetch_observations cat all_series sp500
  = inr rows ->
  (20 <= size (dates_of sp500) -> reliable rows = rows) /\
  (size (dates_of sp500) < 20 ->
   reliable rows = [] /\ curate rows = [] /\ curated_for_worker rows = []).
Proof.
  intros Hrun.
  assert (Hn : forall row, row ∈ rows ->
                 aligned_count row = Z.of_nat (size (dates_of sp500))).
  { intros row Hrow.
    destruct (run_rows _ _ _ _ _ row Hrun Hrow) as (m' & s & Hs & obs & Hacc).
    apply process_accepted_row in Hacc as (_ & Hn & _).
    unfold aligned_count. by rewrite Hn. }
  split.
  - intros H20. apply filter_all. intros row Hrow.
    rewrite (Hn row Hrow). apply Z.leb_le. lia.
  - intros H20.
    assert (reliable rows = []) as He.
    { apply filter_none. intros row Hrow.
      rewrite (Hn row Hrow). apply Z.leb_gt. lia. }
    split; [done|]. unfold curated_for_worker, curate. by rewrite He.
Qed.

End RunOutput.



Lemma reliable_all_or_nothing_witness :
  ex_run = inr [ex_result_row] /\ 20 <= size (dates_of ex_sp500) /\
  reliable [ex_result_row] = [ex_result_row].
Proof.
  assert (H : ex_run = inr [ex_result_row]) by (vm_compute; reflexivity).
  assert (H20 : 20 <= size (dates_of ex_sp500)) by (vm_compute; lia).
  split; [exact H|]. split; [exact H20|].
  exact (proj1 (reliable_all_or_nothing _ _ _ _ _ _ _ _ H) H20).
Defined.

(** ** What the run asks the server *)

Section RunRequests.
Variable np_std : list float -> float.
Variable np_corrcoef_01 : list float -> list float -> float.
Variable round6 : float -> float.

Lemma main_loop_ext fetch1 fetch2 m sp500 filtered i st :
  (forall k s, filtered !! k = Some s ->
               fetch1 (i + k) (s_id s) = fetch2 (i + k) (s_id s)) ->
  main_loop np_std np_corrcoef_01 round6 fetch1 m sp500 i filtered st
  = main_loop np_std np_corrcoef_01 round6 fetch2 m sp500 i filtered st.
Proof.
  revert i st. induction filtered as [|series rest IH]; intros i st Hagree; [done|].
  cbn [main_loop]. unfold loop_turn.
  pose proof (Hagree 0 series eq_refl) as H0. rewrite Nat.add_0_r in H0.
  rewrite <- H0.
  assert (Hrest : forall st1,
    main_loop np_std np_corrcoef_01 round6 fetch1 m sp500 (S i) rest st1
    = main_loop np_std np_corrcoef_01 round6 fetch2 m sp500 (S i) rest st1).
  { intros st1. apply IH. intros k s Hk.
    specialize (Hagree (S k) s Hk). by rewrite Nat.add_succ_r in Hagree. }
  destruct (fetch1 i (s_id series)) as [obs|]; [|done].
  destruct (process_series _ _ _ _ _ _ _); by rewrite ?Hrest.
Qed.

(** X19. A run asks for the observations of the series the exclusion filter
    let through, one request for each turn of the loop, and for nothing
    else: two servers that agree on those requests give the same run,
    whatever they would return for an excluded series. *)
Theorem run_requests_kept_only fetch1 fetch2 cat all_series sp500 :
  (forall k s, filtered cat all_series !! k = Some s ->
               fetch1 k (s_id s) = fetch2 k (s_id s)) ->
  run np_std np_corrcoef_01 round6 fetch1 cat all_series sp500
  = run np_std np_corrcoef_01 round6 fetch2 cat all_series sp500.
Proof.
  intros Hagree. unfold run.
  destruct all_series as [|s0 all_series]; [done|].
  destruct sp500 as [|o0 sp500]; [done|].
  destruct (max_missing _) as [m|]; [|done].
  by rewrite (main_loop_ext fetch1 fetch2).
Qed.

End RunRequests.

Lemma run_requests_kept_only_witness :
  run (fun _ => 1%float) (fun _ _ => 0.5%float) (fun x => x)
    (fun i sid => if String.eqb sid "SP500" then None else ex_fetch i sid)
    ∅ ex_catalog ex_sp500
  = ex_run.
Proof.
  apply (run_requests_kept_only (fun _ => 1%float) (fun _ _ => 0.5%float)
           (fun x => x)
           (fun i sid => if String.eqb sid "SP500" then None else ex_fetch i sid)
           ex_fetch ∅ ex_catalog ex_sp500).
  intros k s Hk.
  assert (Hin : s ∈ filtered ∅ ex_catalog) by (by apply (list_elem_of_lookup_2 _ k)).
  assert (Hs : Forall (fun s => String.eqb (s_id s) "SP500" = false)
                 (filtered ∅ ex_catalog)).
  { apply (bool_decide_eq_true_1 _). vm_compute. reflexivity. }
  rewrite Forall_forall in Hs. by rewrite (Hs s Hin).
Defined.

(** ** The HTTP wrapper *)

Section FredGetFacts.
Context {Data : Type}.
Variable error_code : Data -> ErrorCode.
Variable server : Z -> Response Data.

Lemma verdict_return attempt resp data :
  verdict error_code attempt resp = return_data data <->
  resp = http_response 200 (Some data) /\ code_truthy (error_code data) = false.
Proof.
  unfold verdict. destruct resp as [| |status_code body].
  - destruct (linear_backoff_ok attempt); by split; [|intros []].
  - by split; [|intros []].
  - destruct (Z.eqb_spec status_code 429) as [->|H429].
    { destruct (backoff_ok attempt); by split; [|intros []]. }
    destruct ((500 <=? status_code)%Z && (status_code <? 600)%Z) eqn:E5.
    { destruct (linear_backoff_ok attempt); split; try done;
        intros [[= -> _] _]; done. }
    destruct (Z.eqb_spec status_code 200) as [->|H200]; cbn [negb].
    2:{ split; [done|]. by intros [[= ? _] _]. }
    destruct body as [d|]; [|by split; [|intros []]].
    destruct (code_truthy (error_code d)) eqn:Et.
    + destruct (code_is_429 (error_code d)); [destruct (backoff_ok attempt)|];
        split; try done; intros [[= ->] Hf]; congruence.
    + split; [by intros [= ->] | by intros [[= ->] _]].
Qed.

Lemma verdict_not_failed attempt resp :
  verdict error_code attempt resp <> raise failed_after_retries.
Proof.
  unfold verdict. destruct resp as [| |status_code body]; [|done|].
  - by destruct (linear_backoff_ok attempt).
  - repeat (match goal with
            | |- context[if ?b then _ else _] => destruct b
            | |- context[match ?o with Some _ => _ | None => _ end] => destruct o
            end; try done).
Qed.

(** The retry loop, turn by turn: [k] responses are retried, and either
    the turns are used up or the next response ends the call. *)
Lemma fred_get_loop_spec n attempt st :
  exists k,
    k <= n /\
    (forall j, j < k ->
       verdict error_code (attempt + j) (server (api_attempts st + Z.of_nat j))
       = retry) /\
    let st' := (fred_get_loop error_code server n attempt st).1 in
    let res := (fred_get_loop error_code server n attempt st).2 in
    api_retries st' = (api_retries st + Z.of_nat k)%Z /\
    ((k = n /\ res = inl failed_after_retries /\
      api_attempts st' = (api_attempts st + Z.of_nat k)%Z /\
      api_successes st' = api_successes st) \/
     (k < n /\ api_attempts st' = (api_attempts st + Z.of_nat k + 1)%Z /\
      ((exists data,
          verdict error_code (attempt + k) (server (api_attempts st + Z.of_nat k))
          = return_data data /\
          res = inr data /\ api_successes st' = (api_successes st + 1)%Z) \/
       (exists e,
          verdict error_code (attempt + k) (server (api_attempts st + Z.of_nat k))
          = raise e /\
          res = inl e /\ api_successes st' = api_successes st)))).
Proof.
  revert attempt st. induction n as [|n IH]; intros attempt st.
  - exists 0. cbn. split; [done|]. split; [intros j Hj; lia|].
    split; [lia|]. left. repeat split; lia.
  - cbn [fred_get_loop]. cbn zeta.
    destruct (verdict error_code attempt (server (api_attempts st))) as [|data|e] eqn:Ev.
    + destruct (IH (S attempt) (count_retry (count_attempt st)))
        as (k & Hk & Hretried & Hret & Hcases).
      cbn [count_retry count_attempt api_attempts api_successes api_retries] in *.
      exists (S k). split; [lia|]. split.
      { intros [|j] Hj.
        - change (Z.of_nat 0) with 0%Z. by rewrite Nat.add_0_r, Z.add_0_r.
        - specialize (Hretried j ltac:(lia)).
          replace (attempt + S j) with (S attempt + j) by lia.
          by replace (api_attempts st + Z.of_nat (S j))%Z
            with (api_attempts st + 1 + Z.of_nat j)%Z by lia. }
      split; [lia|].
      replace (attempt + S k) with (S attempt + k) by lia.
      replace (api_attempts st + Z.of_nat (S k))%Z
        with (api_attempts st + 1 + Z.of_nat k)%Z by lia.
      destruct Hcases as [(-> & Hres & Ha & Hs) | (Hlt & Ha & Hrest)].
      * left. repeat split; [done|lia|done].
      * right. split; [lia|]. split; [lia|]. exact Hrest.
    + exists 0. change (Z.of_nat 0) with 0%Z. rewrite Nat.add_0_r, !Z.add_0_r.
      cbn. split; [lia|].
      split; [intros j Hj; lia|]. split; [lia|]. right.
      split; [lia|]. split; [lia|]. left. by exists data.
    + exists 0. change (Z.of_nat 0) with 0%Z. rewrite Nat.add_0_r, !Z.add_0_r.
      cbn. split; [lia|].
      split; [intros j Hj; lia|]. split; [lia|]. right.
      split; [lia|]. split; [lia|]. right. by exists e.
Qed.

(** X20. The bookkeeping of [fred_get]: a call makes at most [retries]
    requests, none when [retries] is not positive; each request is counted as
    an attempt and is then a retry, the success, or the one that raised.  Data
    comes back only from a response with status 200 whose payload has no
    truthy [error_code], and exactly then [_api_successes] grows, by one.  The
    call gives up with the retries used up only after [retries] requests, all
    counted as retries. *)
Theorem fred_get_accounting retries st :
  let st' := (fred_get error_code server retries st).1 in
  let res := (fred_get error_code server retries st).2 in
  (api_attempts st <= api_attempts st' <= api_attempts st + Z.max 0 retries)%Z /\
  (api_retries st <= api_retries st')%Z /\
  match res with
  | inr data =>
      api_successes st' = (api_successes st + 1)%Z /\
      (api_attempts st' - api_attempts st
       = api_retries st' - api_retries st + 1)%Z /\
      server (api_attempts st' - 1) = http_response 200 (Some data) /\
      code_truthy (error_code data) = false
  | inl failed_after_retries =>
      api_successes st' = api_successes st /\
      (api_attempts st' - api_attempts st = Z.max 0 retries)%Z /\
      (api_retries st' - api_retries st = Z.max 0 retries)%Z
  | inl _ =>
      api_successes st' = api_successes st /\
      (api_attempts st' - api_attempts st
       = api_retries st' - api_retries st + 1)%Z
  end.
Proof.
  unfold fred_get.
  destruct (fred_get_loop_spec (Z.to_nat retries) 0 st)
    as (k & Hk & Hretried & Hret & Hcases).
  cbn zeta in *.
  destruct (fred_get_loop error_code server (Z.to_nat retries) 0 st) as [st' res].
  cbn [fst snd] in *.
  destruct Hcases as [(-> & -> & Ha & Hs) | (Hlt & Ha & [(d & Hv & -> & Hs) | (e & Hv & -> & Hs)])].
  - repeat split; lia.
  - apply verdict_return in Hv as [Hresp Hcode].
    split; [lia|]. split; [lia|]. split; [done|]. split; [lia|].
    split; [|done].
    by replace (api_attempts st' - 1)%Z with (api_attempts st + Z.of_nat k)%Z by lia.
  - split; [lia|]. split; [lia|].
    destruct e; try (split; [done | lia]).
    by apply verdict_not_failed in Hv.
Qed.


End FredGetFacts.


(** ** Pagination of a category *)

Section FetchCategoryFacts.
Context {Data : Type}.
Variable error_code : Data -> ErrorCode.
Variable seriess : Data -> list (option string).
Variable server : Z -> Z -> Response Data.





End FetchCategoryFacts.


(** ** The report on the excluded series *)

Lemma filter_partition_length {A} (p : A -> bool) l :
  length (List.filter p l) + length (List.filter (fun x => negb (p x)) l)
  = length l.
Proof.
  induction l as [|x l IH]; [done|]. cbn [List.filter].
  destruct (p x); cbn [negb length]; lia.
Qed.

Lemma filter_length_mono {A} (p q : A -> bool) l :
  (forall x, p x = true -> q x = true) ->
  length (List.filter p l) <= length (List.filter q l).
Proof.
  intros Hpq. induction l as [|x l IH]; [done|]. cbn [List.filter].
  destruct (p x) eqn:Ep.
  - rewrite (Hpq x Ep). cbn [length]. lia.
  - destruct (q x); cbn [length]; lia.
Qed.

Lemma is_excluded_excluded cat s : is_excluded s = true -> excluded cat s = true.
Proof.
  intros H. unfold excluded, kept. rewrite H. cbn [negb].
  by rewrite andb_false_r.
Qed.

(** X23. The report on the excluded series: [excluded_count] is the number
    of catalog series the run excludes; the examples printed are at most 20
    series of the catalog, in catalog order, all of them excluded by the
    denylist or a keyword and absent from [filtered], and never more than
    [excluded_count]. *)
Theorem excluded_report cat all_series :
  excluded_count cat all_series
  = Z.of_nat (count_if (excluded cat) all_series) /\
  length (excluded_examples all_series) <= 20 /\
  (Z.of_nat (length (excluded_examples all_series))
   <= excluded_count cat all_series)%Z /\
  excluded_examples all_series `sublist_of` all_series /\
  forall s, s ∈ excluded_examples all_series ->
    (s_id s ∈ EXCLUDE_IDS \/ has_disqualifying_keyword (s_title s)) /\
    excluded cat s = true /\ s ∉ filtered cat all_series.
Proof.
  assert (Hcount : excluded_count cat all_series
                   = Z.of_nat (count_if (excluded cat) all_series)).
  { unfold excluded_count, count_if, filtered, excluded.
    pose proof (filter_partition_length (kept cat) all_series). lia. }
  assert (Hsub : excluded_examples all_series
                 `sublist_of` List.filter is_excluded all_series)
    by apply sublist_take.
  split; [exact Hcount|]. split.
  { unfold excluded_examples. rewrite length_take. lia. }
  split; [|split].
  - rewrite Hcount. apply inj_le.
    etransitivity; [apply sublist_length, Hsub|].
    apply filter_length_mono. intros s. apply is_excluded_excluded.
  - etransitivity; [exact Hsub | apply list_filter_sublist].
  - intros s Hs. apply (elem_of_sublist _ _ _ Hs) in Hsub.
    apply list_elem_of_In, filter_In in Hsub as [_ Hex].
    split; [by apply is_excluded_iff|].
    pose proof (is_excluded_excluded cat s Hex) as Hex'. split; [exact Hex'|].
    intros [_ Hk]%filtered_iff. congruence.
Qed.

(** ** numpy's sums and the zero-variance guard of [pearson_r] *)

(** The splitting of [pairwise_sum_rec] never runs out of fuel: any fuel
    from the length on gives the same sum. *)
Lemma pairwise_sum_rec_fuel fuel1 fuel2 a :
  length a <= fuel1 -> length a <= fuel2 ->
  pairwise_sum_rec fuel1 a = pairwise_sum_rec fuel2 a.
Proof.
  revert fuel2 a. induction fuel1 as [|fuel1 IH]; intros fuel2 a H1 H2.
  - destruct a as [|x a]; [|cbn in H1; lia]. by destruct fuel2.
  - destruct fuel2 as [|fuel2].
    { destruct a as [|x a]; [done | cbn in H2; lia]. }
    cbn [pairwise_sum_rec]. cbn zeta.
    destruct (length a <? 8)%nat; [done|].
    destruct (Nat.leb_spec (length a) 128) as [|Hbig]; [done|].
    assert (Hn2 : 1 <= length a / 2 - (length a / 2) mod 8 <= length a - 1).
    { pose proof (Nat.mod_upper_bound (length a / 2) 8 ltac:(lia)).
      assert (64 <= length a / 2) by (apply Nat.div_le_lower_bound; lia).
      pose proof (Nat.div_lt (length a) 2 ltac:(lia) ltac:(lia)). lia. }
    f_equal; apply IH; rewrite ?length_take, ?length_drop; lia.
Qed.

Lemma EXCLUDE_KEYWORDS_ascii : forallb is_ascii EXCLUDE_KEYWORDS = true.
Proof. vm_compute. reflexivity. Qed.

Lemma funny_keywords_ascii : forallb is_ascii funny_keywords = true.
Proof. vm_compute. reflexivity. Qed.

(** The Kelvin sign lower-cases to [k] and the dotted capital I to [i]
    followed by a combining dot, as in Python: "STOCKING SHELVES" has
    the keyword "stocking", and "MEDİA" does not have "media". *)
Example ex_lower_unicode :
  lower ex_kelvin_title = "nikkei average" /\
  is_funny ex_kelvin_row = true /\
  classify ex_kelvin_row = Some funny /\
  is_funny ex_dotted_row = false.
Proof. vm_compute. done. Qed.

(** C4. The score is not undefined exactly when the sample is short or a
    sequence has zero variance: the zero-variance guard compares the rounded
    [np.std] with 0, and for a candidate that is 0.3 on each of ten
    benchmark dates [np.std] is 2^-54, not 0 (the mean of ten times 0.3 comes
    out as 0.29999999999999993).  The guard does not fire, whatever
    [np.corrcoef] is; numpy's coefficient is 0.0, and the main loop appends a
    row with [r = round(0.0, 6)] for the constant candidate. *)
Theorem zero_variance_guard_misses_constant :
  Forall (fun o => o_value o = 0.3%float) ex_flat /\
  numpy_mean (map o_value ex_flat) = 0.29999999999999993%float /\
  numpy_std (map o_value ex_flat) = 5.5511151231257827e-17%float /\
  PrimFloat.eqb (numpy_std (map o_value ex_flat)) 0 = false /\
  (forall np_corrcoef_01,
     pearson_r numpy_std np_corrcoef_01
       (map o_value ex_sp500_10) (map o_value ex_flat)
     = np_corrcoef_01 (map o_value ex_sp500_10) (map o_value ex_flat)) /\
  max_missing (size (dates_of ex_sp500_10)) = Some 0%Z /\
  (forall round6,
     process_series numpy_std numpy_corrcoef_01 round6 0 ex_sp500_10
       ex_candidate ex_flat
     = accepted (mkRow "DGS10" "A candidate" (round6 0%float) (round6 0%float)
                   (Some 10%Z) None [] "Percent" 50)).
Proof.
  split.
  { apply Forall_forall. intros o Ho. unfold ex_flat in Ho.
    by apply list_elem_of_fmap in Ho as (d & -> & _). }
  split; [vm_compute; reflexivity|]. split; [vm_compute; reflexivity|].
  split; [vm_compute; reflexivity|]. split.
  { intros np_corrcoef_01. unfold pearson_r.
    assert ((length (map o_value ex_sp500_10) <? 10)%nat = false) as ->
      by (vm_compute; reflexivity).
    assert (PrimFloat.eqb (numpy_std (map o_value ex_sp500_10)) 0 = false) as ->
      by (vm_compute; reflexivity).
    assert (PrimFloat.eqb (numpy_std (map o_value ex_flat)) 0 = false) as ->
      by (vm_compute; reflexivity).
    reflexivity. }
  split; [vm_compute; reflexivity|].
  intros round6. vm_compute. reflexivity.
Qed.

(** C9. The score of a sequence against a constant sequence is not always
    undefined.  Against ten times 0.5 it is: the sums are exact, [np.std]
    is 0 and the guard fires.  Against ten times 0.3 the rounded mean is
    not 0.3, [np.std] is not 0, and the score of 1, ..., 10 with the constant
    sequence, on either side, is the number 0.0; no sequence that passes the
    guard on its own is stopped by it for this constant one. *)
Theorem constant_sequence_is_scored :
  PrimFloat.is_nan
    (pearson_r numpy_std numpy_corrcoef_01 ex_ramp ex_half_values) = true /\
  PrimFloat.eqb (numpy_std ex_flat_values) 0 = false /\
  pearson_r numpy_std numpy_corrcoef_01 ex_ramp ex_flat_values = 0%float /\
  pearson_r numpy_std numpy_corrcoef_01 ex_flat_values ex_ramp = 0%float /\
  PrimFloat.is_nan
    (pearson_r numpy_std numpy_corrcoef_01 ex_ramp ex_flat_values) = false /\
  (forall np_corrcoef_01 xs,
     10 <= length xs -> PrimFloat.eqb (numpy_std xs) 0 = false ->
     pearson_r numpy_std np_corrcoef_01 xs ex_flat_values
     = np_corrcoef_01 xs ex_flat_values).
Proof.
  split; [vm_compute; reflexivity|]. split; [vm_compute; reflexivity|].
  split; [vm_compute; reflexivity|]. split; [vm_compute; reflexivity|].
  split; [vm_compute; reflexivity|].
  intros np_corrcoef_01 xs Hlen Hstd. apply pearson_r_else; [done..|].
  vm_compute. reflexivity.
Qed.
